(** * Admission, queueing, retry and result lifecycle of [bot/ai_generator/gemini_utils.py]

    A shallow embedding of the request pipeline of the bot: the credential
    pool, the retry coordinator [process_prompt_direct], the concurrency
    limiter [request_semaphore], the queue worker [queue_worker], the facade
    [process_prompt] with its wait loop, the reaper [cleanup_old_results] and
    the launcher check of [run.py].

    Conventions.
    - Python [str] values are [string]s; one [ascii] stands for one character,
      and [str.lower] is modelled on the ASCII letters.
    - Python [int]s are [Z].  The clock [time.time()] is read in microseconds,
      so that [int(time.time())] is a division by 1000000; [datetime.now()] is
      a second clock, also in microseconds, and a stored ISO timestamp is
      modelled by the instant it denotes.
    - Everything the code obtains from outside (clock readings, random draws,
      the answers of the upstream service) is an explicit argument.
    - A coroutine is cut at its suspension points: every function below is one
      run of the code between two points where the event loop can switch
      tasks. *)

From stdpp Require Import gmap strings list fin_maps.
From Stdlib Require Import ZArith Ascii DecimalString DecimalZ DecimalPos Lia.

Local Open Scope Z_scope.

(* ===================================================================== *)
(** * Python values *)
(* ===================================================================== *)

Module Py.

(** The exception classes the module raises. *)
Inductive exc_type := ValueError | OverflowError | TimeoutError | RuntimeError.

#[global] Instance exc_type_eq_dec : EqDecision exc_type.
Proof. solve_decision. Defined.

(** An exception: its class and [str(e)]. *)
Record exn := Exn { exn_type : exc_type; exn_msg : string }.

(** [type(e).__name__] *)
Definition type_name (t : exc_type) : string :=
  match t with
  | ValueError => "ValueError"
  | OverflowError => "OverflowError"
  | TimeoutError => "TimeoutError"
  | RuntimeError => "RuntimeError"
  end.

(** [c.lower()] on one ASCII character. *)
Definition lower_ascii (c : ascii) : ascii :=
  let n := nat_of_ascii c in
  if ((65 <=? n)%nat && (n <=? 90)%nat)%bool then ascii_of_nat (n + 32) else c.

(** [s.lower()] *)
Fixpoint lower (s : string) : string :=
  match s with
  | EmptyString => EmptyString
  | String c t => String (lower_ascii c) (lower t)
  end.

(** [needle in hay] on strings. *)
Fixpoint contains (needle hay : string) : bool :=
  String.prefix needle hay ||
  match hay with
  | EmptyString => false
  | String _ t => contains needle t
  end.

(** [len(s)] *)
Definition len (s : string) : Z := Z.of_nat (String.length s).

(** [str(n)] for an integer. *)
Definition str_int (n : Z) : string := NilZero.string_of_int (Z.to_int n).

End Py.
Import Py.

(* ===================================================================== *)
(** * Credential pool *)
(* ===================================================================== *)

(** [get_random_api_key()]: [draw] is the index [random.choice] picks. *)
Definition get_random_api_key (api_keys : list string) (draw : nat)
  : exn + string :=
  match api_keys with
  | [] => inl (Exn ValueError "No Gemini API keys available")
  | k :: _ => inr (nth (draw mod List.length api_keys) api_keys k)
  end.

(* ===================================================================== *)
(** * Retry coordinator: [process_prompt_direct] *)
(* ===================================================================== *)

Definition MAX_RETRIES : nat := 3.
Definition BASE_DELAY : Z := 2.

(** What one upstream generation call under [asyncio.wait_for] does. *)
Inductive upstream_result :=
| UText (answer : string)      (* [response.text] *)
| URaise (msg : string)        (* the call, or [response.text], raised; [str(e)] *)
| UTimeout.                    (* [asyncio.TimeoutError] after 90 seconds *)

(** What [genai.list_models()] gives [list_available_models].  The package
    is not part of the repository; its function is a generator, an object that
    can be iterated once ([ListOnce]).  A list could be iterated again
    ([ListAgain]). *)
Inductive listing :=
| ListRaises                          (* the call, or the loop over it, raises *)
| ListOnce (names : list string)
| ListAgain (names : list string).

(** [list_available_models()], lines 47-56: the names a later loop over the
    returned object yields.  The function loops over the listing once, for
    the log, before it returns it, so an object that can be iterated once
    comes back exhausted; when an exception is caught it returns [[]]. *)
Definition list_available_models (l : listing) : list string :=
  match l with
  | ListAgain names => names
  | ListOnce _ => []
  | ListRaises => []
  end.

(** What one pass through the loop body reads from outside. *)
Record attempt_env := AttemptEnv {
  key_draw : nat;                       (* [random.choice] in the try body *)
  models : listing;                     (* what [genai.list_models()] gives *)
  upstream : string -> string -> string -> upstream_result;
                                        (* model name, api key, message *)
  retry_key_draw : nat                  (* [random.choice] in the handler *)
}.

(** Effects of the coordinator, in program order. *)
Inductive effect :=
| EListModels
| ECall (model_name api_key : string) (r : upstream_result)
| ESleep (base : Z).   (* [asyncio.sleep(base + random.uniform(0, 1))] *)

Definition preferred_models : list string :=
  ["gemini-pro"; "gemini-1.5-pro"; "gemini-1.5-flash"; "gemini-2.0-flash";
   "gemini-1.0-pro"].

(** The nested [for preferred ... for model ...] search of the first attempt,
    over the names that the loops over [models] yield. *)
Fixpoint find_preferred (prefs : list string) (ms : list string)
  : option string :=
  match prefs with
  | [] => None
  | p :: prefs' =>
      match List.find (contains p) ms with
      | Some name => Some name
      | None => find_preferred prefs' ms
      end
  end.

Definition select_model (retry_count : nat) (l : listing) : string :=
  if (retry_count =? 0)%nat then
    match find_preferred preferred_models (list_available_models l) with
    | Some name => name
    | None => "models/gemini-1.5-flash"
    end
  else "models/gemini-pro".

(** The [try] body of one attempt: either [(answer, n_used_tokens)] or
    [str(e)] of the exception that reaches the handler. *)
Definition try_body (api_keys : list string) (message : string)
    (retry_count : nat) (e : attempt_env)
  : (string + (string * Z)) * list effect :=
  match get_random_api_key api_keys (key_draw e) with
  | inl err => (inl (exn_msg err), [])
  | inr api_key =>
      let pre := if (retry_count =? 0)%nat then [EListModels] else [] in
      let model_name := select_model retry_count (models e) in
      let r := upstream e model_name api_key message in
      let effs := pre ++ [ECall model_name api_key r] in
      match r with
      | UTimeout => (inl "API request timed out after 90 seconds", effs)
      | URaise msg => (inl msg, effs)
      | UText answer =>
          let n_used_tokens := len message / 4 + len answer / 4 in
          (inr (answer, n_used_tokens), effs)
      end
  end.

(** How one pass through the [while] body ends. *)
Inductive iter_result :=
| IReturn (answer : string) (n_used_tokens : Z)
| IRaise (e : exn)
| IContinue (retry_count : nat).

(** The categorisation of the final failure. *)
Definition classify_final (str_e : string) : exn :=
  let error_message := lower str_e in
  if contains "overloaded" error_message || contains "rate limit" error_message
     || contains "quota" error_message then
    Exn OverflowError "That model is currently overloaded with other requests."
  else if contains "timeout" error_message || contains "deadline" error_message then
    Exn TimeoutError "Request to the model timed out. Please try again."
  else
    Exn RuntimeError
      ("Error with Gemini API after " +:+ str_int (Z.of_nat MAX_RETRIES)
         +:+ " attempts: " +:+ str_e).

(** One pass through the body of [while answer is None and retry_count <
    MAX_RETRIES], handler included. *)
Definition loop_iteration (api_keys : list string) (message : string)
    (retry_count : nat) (e : attempt_env) : iter_result * list effect :=
  match try_body api_keys message retry_count e with
  | (inr (answer, n), effs) => (IReturn answer n, effs)
  | (inl str_e, effs) =>
      let retry_count := S retry_count in
      let error_message := lower str_e in
      if contains "too many tokens" error_message then
        (IRaise (Exn ValueError "Too many tokens to make completion"), effs)
      else if (retry_count <? MAX_RETRIES)%nat then
        match get_random_api_key api_keys (retry_key_draw e) with
        | inl err' => (IRaise err', effs)
        | inr _ =>
            (IContinue retry_count,
             effs ++ [ESleep (BASE_DELAY * 2 ^ (Z.of_nat retry_count - 1))])
        end
      else (IRaise (classify_final str_e), effs)
  end.

(** How the coordinator ends; [DNone] is the fall off the end of the loop. *)
Inductive direct_result :=
| DReturn (answer : string) (n_used_tokens : Z)
| DRaise (e : exn)
| DNone.

(** The [while] loop; [env k] is what the pass entered with [retry_count = k]
    reads.  The recursion is on [fuel]; [MAX_RETRIES] is enough. *)
Fixpoint direct_loop (fuel : nat) (api_keys : list string) (message : string)
    (env : nat -> attempt_env) (retry_count : nat)
  : direct_result * list effect :=
  match fuel with
  | O => (DNone, [])
  | S fuel' =>
      if (retry_count <? MAX_RETRIES)%nat then
        match loop_iteration api_keys message retry_count (env retry_count) with
        | (IReturn a n, effs) => (DReturn a n, effs)
        | (IRaise e, effs) => (DRaise e, effs)
        | (IContinue rc, effs) =>
            let '(r, effs') := direct_loop fuel' api_keys message env rc in
            (r, effs ++ effs')
        end
      else (DNone, [])
  end.

Definition process_prompt_direct (api_keys : list string) (message : string)
    (env : nat -> attempt_env) : direct_result * list effect :=
  direct_loop MAX_RETRIES api_keys message env 0.

Definition is_call (e : effect) : bool :=
  match e with ECall _ _ _ => true | _ => false end.

(** Number of upstream generation calls in an effect log (the model listing
    of the first pass is logged as [EListModels] and not counted). *)
Definition upstream_calls (effs : list effect) : nat :=
  List.length (List.filter is_call effs).

(* ===================================================================== *)
(** * Module start-up and the launcher *)
(* ===================================================================== *)

(** [if v:] for a value read with [os.getenv]. *)
Definition truthy (v : option string) : bool :=
  match v with
  | Some s => negb (String.eqb s "")
  | None => false
  end.

(** The [while True] scan of [GEMINI_API_KEY_1], [GEMINI_API_KEY_2], ...
    Each pass reads another variable of the finite environment, so
    [S (size environ)] passes are enough ([additional_keys_enough]). *)
Fixpoint additional_keys (fuel : nat) (environ : gmap string string) (i : Z)
  : list string :=
  match fuel with
  | O => []
  | S fuel' =>
      let key := environ !! ("GEMINI_API_KEY_" +:+ str_int i) in
      if truthy key then default "" key :: additional_keys fuel' environ (i + 1)
      else []
  end.

(** The module-level construction of [api_keys]. *)
Definition load_api_keys (environ : gmap string string) : list string :=
  let main_api_key := environ !! "GEMINI_API_KEY" in
  (if truthy main_api_key then [default "" main_api_key] else [])
    ++ additional_keys (S (size environ)) environ 1.

(** [MAX_CONCURRENT_REQUESTS = len(api_keys) * 2 if api_keys else 3] *)
Definition MAX_CONCURRENT_REQUESTS (api_keys : list string) : Z :=
  match api_keys with
  | [] => 3
  | _ => Z.of_nat (List.length api_keys) * 2
  end.

(** What can be raised inside the [try] block of [main] of [run.py], by the
    [except] clause that meets it: [RBaseException] is a [BaseException] that
    is neither a [KeyboardInterrupt] nor an [Exception] (a [SystemExit], say),
    which no clause catches. *)
Inductive raised := RImportError | RKeyboardInterrupt | RException | RBaseException.

(** How the [try] block goes once it is entered: the statement
    [from bot.bot import run_bot] runs the modules of the bot and can itself
    raise; only after it is [run_bot()] called. *)
Inductive bot_run :=
| ImportRaises (r : raised)
| BotReturns
| BotRaises (r : raised).

(** How [main] ends: [return status], or an exception it does not catch. *)
Inductive main_end := Returns (status : Z) | Propagates.

(** The [except] clauses of [main], in their order. *)
Definition main_handler (r : raised) : main_end :=
  match r with
  | RImportError => Returns 1
  | RKeyboardInterrupt => Returns 0
  | RException => Returns 1
  | RBaseException => Propagates
  end.

(** [main()] of [run.py]: how it ends, and whether [run_bot] was called. *)
Definition main (environ : gmap string string) (bot : bot_run) : main_end * bool :=
  let required_vars := ["TELEGRAM_TOKEN"; "GEMINI_API_KEY"] in
  let missing_vars :=
    List.filter (fun var => negb (truthy (environ !! var))) required_vars in
  match missing_vars with
  | _ :: _ => (Returns 1, false)
  | [] =>
      match bot with
      | ImportRaises r => (main_handler r, false)
      | BotReturns => (Returns 0, true)
      | BotRaises r => (main_handler r, true)
      end
  end.

(* ===================================================================== *)
(** * Result store, queue and shared state *)
(* ===================================================================== *)

Definition MAX_QUEUE_SIZE : Z := 100.

Inductive Status := Queued | Completed | Error | Timeout.

#[global] Instance Status_eq_dec : EqDecision Status.
Proof. solve_decision. Defined.

(** One entry of [request_results].  An absent key is [None] in
    [queued_at], [error_type] and [completed_at]; [result] and [error] are
    always present and [None] is Python's [None]. *)
Record ResultRecord := mkRecord {
  status : Status;
  queued_at : option Z;
  result : option (string * Z);
  error : option string;
  error_type : option string;
  completed_at : option Z
}.

(** A queue item [(request_id, message, priority)]. *)
Abbreviation Request := (string * string * Z)%type.

(** Where a [queue_worker] coroutine is suspended. *)
Inductive worker_pc :=
| WCreated                                  (* task created, body not entered *)
| WGet                                      (* [await request_queue.get()] *)
| WProcessing (request_id message : string) (priority : Z)
                                            (* [await process_prompt_direct(message)] *)
| WPause.                                   (* [await asyncio.sleep(0.5)] *)

(** A caller suspended in the wait loop of [process_prompt]. *)
Record waiter := mkWaiter {
  w_request_id : string;
  w_start_time : Z;       (* microseconds *)
  w_timeout : Z           (* seconds *)
}.

(** The module globals, the tasks created so far and the suspended callers. *)
Record State := mkState {
  api_keys : list string;
  current_queue_size : Z;
  request_queue : list Request;                    (* head first *)
  request_results : gmap string ResultRecord;
  queue_worker_running : bool;
  queue_worker_task : option nat;                  (* [_queue_worker_task] *)
  workers : list worker_pc;                        (* [queue_worker()] tasks *)
  waiters : list (option waiter)                   (* [None]: call finished *)
}.

Definition initial_state (keys : list string) : State :=
  mkState keys 0 [] ∅ false None [] [].

Definition set_results (f : gmap string ResultRecord -> gmap string ResultRecord)
    (st : State) : State :=
  mkState (api_keys st) (current_queue_size st) (request_queue st)
    (f (request_results st)) (queue_worker_running st) (queue_worker_task st)
    (workers st) (waiters st).

Definition set_queue (size : Z) (q : list Request) (st : State) : State :=
  mkState (api_keys st) size q (request_results st) (queue_worker_running st)
    (queue_worker_task st) (workers st) (waiters st).

Definition set_worker (i : nat) (pc : worker_pc) (st : State) : State :=
  mkState (api_keys st) (current_queue_size st) (request_queue st)
    (request_results st) (queue_worker_running st) (queue_worker_task st)
    (<[i := pc]> (workers st)) (waiters st).

Definition set_running (b : bool) (st : State) : State :=
  mkState (api_keys st) (current_queue_size st) (request_queue st)
    (request_results st) b (queue_worker_task st) (workers st) (waiters st).

Definition spawn_worker (st : State) : State :=
  mkState (api_keys st) (current_queue_size st) (request_queue st)
    (request_results st) (queue_worker_running st)
    (Some (List.length (workers st))) (workers st ++ [WCreated]) (waiters st).

Definition set_waiters (ws : list (option waiter)) (st : State) : State :=
  mkState (api_keys st) (current_queue_size st) (request_queue st)
    (request_results st) (queue_worker_running st) (queue_worker_task st)
    (workers st) ws.

(** What a step lets the outside see: log records and the way a call of
    [process_prompt] ends. *)
Inductive output :=
| LogWorkerStarted                       (* "Queue worker started on demand" *)
| LogQueueFull                           (* "Request queue is full ..." *)
| LogAdded (r : Request)                 (* "Added request ... to queue" *)
| LogProcessing (r : Request)            (* "Processing queued request ..." *)
| LogCompleted (request_id : string)     (* "Request ... completed successfully" *)
| LogFailed (request_id : string)        (* "Request ... failed with error" *)
| LogTimedOut (request_id : string)      (* "Request ... timed out after ..." *)
| ReturnedId (request_id : string)
| ReturnedResult (r : option (string * Z))
| Raised (e : exn)
| Suspended.                             (* [await asyncio.sleep(0.5)] *)

(* ===================================================================== *)
(** * Facade: [process_prompt] *)
(* ===================================================================== *)

(** What a call reads from outside before it first suspends. *)
Record submit_env := SubmitEnv {
  id_clock : Z;          (* [time.time()] in the request id *)
  id_draw : Z;           (* [random.randint(1000, 9999)] *)
  queued_now : Z;        (* [datetime.now()] of [queued_at] *)
  start_clock : Z;       (* [start_time = time.time()] *)
  check_clock : Z        (* [time.time()] of the first loop test *)
}.

(** [f"req_{int(time.time())}_{random.randint(1000, 9999)}"] *)
Definition generate_request_id (clock draw : Z) : string :=
  "req_" +:+ str_int (Z.quot clock 1000000) +:+ "_" +:+ str_int draw.

Definition queue_full_error : exn :=
  Exn OverflowError
    "Tizim hozir juda band. Iltimos, keyinroq qayta urinib ko'ring.".

Definition queued_record (now : Z) : ResultRecord :=
  mkRecord Queued (Some now) None None None None.

(** Lines 281-284: the worker is started on demand. *)
Definition after_worker_start (st : State) : State * list output :=
  if negb (queue_worker_running st) && bool_decide (queue_worker_task st = None)
  then (spawn_worker st, [LogWorkerStarted]) else (st, []).

(** Lines 281-306: worker start on demand, request id, capacity check,
    enqueue, record. *)
Definition admission (st : State) (message : string) (priority : Z) (e : submit_env)
  : (exn + string) * State * list output :=
  let '(st, out) := after_worker_start st in
  let request_id := generate_request_id (id_clock e) (id_draw e) in
  if MAX_QUEUE_SIZE <=? current_queue_size st then
    (inl queue_full_error, st, out ++ [LogQueueFull])
  else
    let req := (request_id, message, priority) in
    let st := set_queue (current_queue_size st + 1) (request_queue st ++ [req]) st in
    let st := set_results (insert request_id (queued_record (queued_now e))) st in
    (inr request_id, st, out ++ [LogAdded req]).

(** The exception re-raised from a stored [error_type]. *)
Definition reraise (error_type : string) (error_message : string) : exn :=
  if String.eqb error_type "ValueError" then Exn ValueError error_message
  else if String.eqb error_type "OverflowError" then Exn OverflowError error_message
  else if String.eqb error_type "TimeoutError" then Exn TimeoutError error_message
  else Exn RuntimeError error_message.

Definition wait_timeout_error (timeout : Z) : exn :=
  Exn TimeoutError
    ("So'rov vaqti tugadi (" +:+ str_int timeout
       +:+ " soniya). Iltimos, keyinroq qayta urinib ko'ring.").

(** One pass of the wait loop from its test, lines 314-349: how it ends for the
    caller ([Suspended] is the [sleep] before the next pass).  The key
    ["error"] is in every record, so [get] returns its value; a [None] there
    would print as ["None"]. *)
Definition wait_check (st : State) (w : waiter) (clock : Z)
  : State * list output :=
  let request_id := w_request_id w in
  if clock - w_start_time w <? w_timeout w * 1000000 then
    match request_results st !! request_id with
    | Some result_data =>
        match status result_data with
        | Completed =>
            (set_results (delete request_id) st,
             [ReturnedResult (result result_data)])
        | Error =>
            (set_results (delete request_id) st,
             [Raised (reraise (default "RuntimeError" (error_type result_data))
                              (default "None" (error result_data)))])
        | _ => (st, [Suspended])
        end
    | None => (st, [Suspended])
    end
  else
    let st :=
      match request_results st !! request_id with
      | Some r =>
          set_results
            (insert request_id
               (mkRecord Timeout (queued_at r) (result r) (error r)
                  (error_type r) (completed_at r))) st
      | None => st
      end in
    (st, [LogTimedOut request_id; Raised (wait_timeout_error (w_timeout w))]).

(** Has this pass ended the call? *)
Definition suspended (out : list output) : bool :=
  match last out with
  | Some Suspended => true
  | _ => false
  end.

(** A call of [process_prompt] up to its first suspension or its end. *)
Definition process_prompt (st : State) (message : string) (priority : Z)
    (wait_for_result : bool) (timeout : Z) (e : submit_env)
  : State * list output :=
  match admission st message priority e with
  | (inl err, st, out) => (st, out ++ [Raised err])
  | (inr request_id, st, out) =>
      if negb wait_for_result then (st, out ++ [ReturnedId request_id])
      else
        let w := mkWaiter request_id (start_clock e) timeout in
        let '(st, out') := wait_check st w (check_clock e) in
        (set_waiters (waiters st ++ [if suspended out' then Some w else None]) st,
         out ++ out')
  end.

(** A suspended caller wakes up from [asyncio.sleep(0.5)]. *)
Definition wake (st : State) (caller : nat) (clock : Z) : State * list output :=
  match waiters st !! caller with
  | Some (Some w) =>
      let '(st, out) := wait_check st w clock in
      (if suspended out then st
       else set_waiters (<[caller := None]> (waiters st)) st, out)
  | _ => (st, [])
  end.

(* ===================================================================== *)
(** * Queue worker *)
(* ===================================================================== *)

(** What the worker reads from outside while it handles one request. *)
Record worker_env := WorkerEnv {
  attempts : nat -> attempt_env;
  completed_now : Z                  (* [datetime.now()] of [completed_at] *)
}.

(** The record the worker stores for the way the coordinator ended. *)
Definition worker_record (r : direct_result) (now : Z) : ResultRecord :=
  match r with
  | DReturn answer n => mkRecord Completed None (Some (answer, n)) None None (Some now)
  | DNone => mkRecord Completed None None None None (Some now)
  | DRaise e =>
      mkRecord Error None None (Some (exn_msg e))
        (Some (type_name (exn_type e))) (Some now)
  end.

Definition worker_log (r : direct_result) (request_id : string) : output :=
  match r with
  | DRaise _ => LogFailed request_id
  | _ => LogCompleted request_id
  end.

(** Worker [i] runs from its suspension point to the next one. *)
Definition queue_worker (st : State) (i : nat) (e : worker_env)
  : State * list output :=
  match workers st !! i with
  | None => (st, [])
  | Some WCreated => (set_worker i WGet (set_running true st), [])
  | Some WGet =>
      match request_queue st with
      | [] => (st, [])
      | (request_id, message, priority) :: q =>
          (set_worker i (WProcessing request_id message priority)
             (set_queue (current_queue_size st - 1) q st),
           [LogProcessing (request_id, message, priority)])
      end
  | Some (WProcessing request_id message priority) =>
      let '(r, _) := process_prompt_direct (api_keys st) message (attempts e) in
      (set_worker i WPause
         (set_results (insert request_id (worker_record r (completed_now e))) st),
       [worker_log r request_id])
  | Some WPause => (set_worker i WGet st, [])
  end.

(* ===================================================================== *)
(** * Reaper: [cleanup_old_results] *)
(* ===================================================================== *)

(** Is the record put on [to_delete] by a sweep at [now]? *)
Definition stale (now : Z) (data : ResultRecord) : bool :=
  match completed_at data with
  | Some completed_time => 3600 * 1000000 <? now - completed_time
  | None =>
      match queued_at data with
      | Some queued_time => 7200 * 1000000 <? now - queued_time
      | None => false
      end
  end.

(** One sweep. *)
Definition cleanup_old_results (st : State) (now : Z) : State :=
  set_results (filter (fun kv => stale now kv.2 = false)) st.

(* ===================================================================== *)
(** * The system as interleaved steps *)
(* ===================================================================== *)

Inductive event :=
| EvSubmit (message : string) (priority : Z) (wait_for_result : bool)
    (timeout : Z) (e : submit_env)
| EvWake (caller : nat) (clock : Z)
| EvWorker (i : nat) (e : worker_env)
| EvReaper (now : Z).

Definition step (st : State) (ev : event) : State * list output :=
  match ev with
  | EvSubmit message priority wait_for_result timeout e =>
      process_prompt st message priority wait_for_result timeout e
  | EvWake caller clock => wake st caller clock
  | EvWorker i e => queue_worker st i e
  | EvReaper now => (cleanup_old_results st now, [])
  end.

(** Run a schedule; the outputs come in the order they were produced. *)
Fixpoint exec (st : State) (evs : list event) : State * list output :=
  match evs with
  | [] => (st, [])
  | ev :: evs' =>
      let '(st1, out1) := step st ev in
      let '(st2, out2) := exec st1 evs' in
      (st2, out1 ++ out2)
  end.

(* ===================================================================== *)
(** * Concurrency limiter: [request_semaphore] around the coordinator *)
(* ===================================================================== *)

Module Limiter.

(** Where an invocation of [process_prompt_direct] stands. *)
Inductive task_pc :=
| TEntry (message : string)                       (* at [async with request_semaphore] *)
| TBody (message : string) (retry_count : nat)    (* inside the block, at the loop test *)
| TDone (r : direct_result).                      (* block left, permit returned *)

(** [_value] of the semaphore and the invocations in progress. *)
Record state := mkLState {
  sem_value : Z;
  tasks : list task_pc
}.

(** [asyncio.Semaphore(MAX_CONCURRENT_REQUESTS)] and one invocation per
    message. *)
Definition init (api_keys : list string) (messages : list string) : state :=
  mkLState (MAX_CONCURRENT_REQUESTS api_keys) (TEntry <$> messages).

(** Invocation [i] runs to its next suspension point: [acquire] succeeds
    when [_value > 0] and leaves the invocation blocked otherwise; a pass
    through the loop keeps the permit; leaving the block releases it. *)
Definition step (api_keys : list string) (s : state) (i : nat) (e : attempt_env)
  : state :=
  match tasks s !! i with
  | Some (TEntry message) =>
      if 0 <? sem_value s then
        mkLState (sem_value s - 1) (<[i := TBody message 0]> (tasks s))
      else s
  | Some (TBody message retry_count) =>
      if (retry_count <? MAX_RETRIES)%nat then
        match fst (loop_iteration api_keys message retry_count e) with
        | IReturn a n =>
            mkLState (sem_value s + 1) (<[i := TDone (DReturn a n)]> (tasks s))
        | IRaise err =>
            mkLState (sem_value s + 1) (<[i := TDone (DRaise err)]> (tasks s))
        | IContinue rc => mkLState (sem_value s) (<[i := TBody message rc]> (tasks s))
        end
      else mkLState (sem_value s + 1) (<[i := TDone DNone]> (tasks s))
  | _ => s
  end.

Fixpoint run (api_keys : list string) (s : state)
    (schedule : list (nat * attempt_env)) : state :=
  match schedule with
  | [] => s
  | (i, e) :: schedule' => run api_keys (step api_keys s i e) schedule'
  end.

(** Permits held by one invocation. *)
Definition held (pc : task_pc) : Z :=
  match pc with
  | TBody _ _ => 1
  | _ => 0
  end.

(** Permits handed out and not yet returned. *)
Definition outstanding (api_keys : list string) (s : state) : Z :=
  MAX_CONCURRENT_REQUESTS api_keys - sem_value s.

Fixpoint sum_held (ts : list task_pc) : Z :=
  match ts with
  | [] => 0
  | pc :: ts' => held pc + sum_held ts'
  end.

End Limiter.

(* ===================================================================== *)
(** * Introspection and the other entry points *)
(* ===================================================================== *)

(** What [check_request_status] returns: the stored record, or the
    [{"status": "not_found", "error": "Request not found"}] dictionary. *)
Inductive status_reply := Found (data : ResultRecord) | NotFound.

Definition check_request_status (st : State) (request_id : string)
  : status_reply :=
  match request_results st !! request_id with
  | Some data => Found data
  | None => NotFound
  end.

(** The dictionary of [get_queue_status]. *)
Record queue_status := mkQueueStatus {
  queue_size : Z;
  max_queue_size : Z;
  worker_running : bool;
  pending_results : Z;
  api_keys_count : Z
}.

Definition get_queue_status (st : State) : queue_status :=
  mkQueueStatus (current_queue_size st) MAX_QUEUE_SIZE (queue_worker_running st)
    (Z.of_nat (size (request_results st))) (Z.of_nat (List.length (api_keys st))).

(** [start_queue_worker()]: [loop_running] is false when there is no event
    loop or it does not run; the function then only logs a warning. *)
Definition start_queue_worker (st : State) (loop_running : bool) : State :=
  if negb (queue_worker_running st) && bool_decide (queue_worker_task st = None)
  then (if loop_running then spawn_worker st else st)
  else st.

(** The program as a whole.  The handlers of [bot.py], the only callers of
    [process_prompt], run inside [run_bot()], and the core module is loaded
    by the import that precedes that call: [evs] is what goes on in the core
    while [run_bot] runs, and there is a core at work only when [run_bot] was
    called. *)
Definition program (environ : gmap string string) (bot : bot_run)
    (evs : list event) : main_end * option (State * list output) :=
  let '(ending, called) := main environ bot in
  (ending,
   if called then Some (exec (initial_state (load_api_keys environ)) evs)
   else None).

(** The key as [main] of [run.py] logs it, line 36. *)
Definition mask_key (gemini_api_key : string) : string :=
  let n := String.length gemini_api_key in
  if (8 <? n)%nat then
    String.substring 0 4 gemini_api_key
      +:+ String.concat "" (replicate (n - 8) "*")
      +:+ String.substring (n - 4) 4 gemini_api_key
  else "***".

(** The priority the handlers of [bot.py] pass to [process_prompt]. *)
Definition request_priority (is_admin is_premium : bool) : Z :=
  if is_admin then 1 else if is_premium then 2 else 3.


(* ===================================================================== *)
(** * Observations on effect logs and output traces *)
(* ===================================================================== *)

(** The classification of line 168: the upstream error text, lowered,
    contains "too many tokens". *)
Definition payload_too_large (r : upstream_result) : bool :=
  match r with
  | URaise str_e => contains "too many tokens" (lower str_e)
  | _ => false
  end.

Definition too_many_tokens_error : exn :=
  Exn ValueError "Too many tokens to make completion".

(** Is there a call in the log that failed as payload-too-large? *)
Definition has_ptl (effs : list effect) : bool :=
  existsb (fun e => match e with ECall _ _ r => payload_too_large r | _ => false end)
    effs.

(** Nothing follows a call that failed as payload-too-large. *)
Fixpoint ptl_is_last (effs : list effect) : bool :=
  match effs with
  | [] => true
  | ECall _ _ r :: rest =>
      if payload_too_large r then match rest with [] => true | _ => false end
      else ptl_is_last rest
  | _ :: rest => ptl_is_last rest
  end.

(** The request id of a queue item. *)
Definition req_id (r : Request) : string := r.1.1.

(** Ids of the requests logged as added to the queue, in order. *)
Definition added_ids (outs : list output) : list string :=
  omap (fun o => match o with LogAdded r => Some (req_id r) | _ => None end) outs.

(** Ids of the requests logged as taken by a worker, in order. *)
Definition processing_ids (outs : list output) : list string :=
  omap (fun o => match o with LogProcessing r => Some (req_id r) | _ => None end) outs.

(** Ids for which a worker stored its record, in order. *)
Definition stored_ids (outs : list output) : list string :=
  omap (fun o => match o with
                 | LogCompleted i | LogFailed i => Some i
                 | _ => None
                 end) outs.

(** Ids of the requests taken from the queue whose record the worker has not
    stored yet. *)
Definition in_flight (ws : list worker_pc) : list string :=
  omap (fun pc => match pc with WProcessing i _ _ => Some i | _ => None end) ws.

(** What every schedule keeps true of the shared state and the trace. *)
Definition system_inv (st : State) (outs : list output) : Prop :=
  (List.length (workers st) <= 1)%nat /\
  (queue_worker_task st = None -> workers st = []) /\
  current_queue_size st = Z.of_nat (List.length (request_queue st)) /\
  current_queue_size st <= MAX_QUEUE_SIZE /\
  added_ids outs
  = stored_ids outs ++ in_flight (workers st) ++ (req_id <$> request_queue st) /\
  processing_ids outs = stored_ids outs ++ in_flight (workers st).

(** A step that leaves the queue, its counter and the workers alone. *)
Definition frame (st st' : State) : Prop :=
  workers st' = workers st /\ queue_worker_task st' = queue_worker_task st /\
  current_queue_size st' = current_queue_size st /\
  request_queue st' = request_queue st.

(** Outputs that log no admission, no dequeue and no stored record. *)
Definition silent (o : list output) : Prop :=
  added_ids o = [] /\ processing_ids o = [] /\ stored_ids o = [].

(** The error of line 189, raised when the last failure reads as a timeout. *)
Definition upstream_timeout_error : exn :=
  Exn TimeoutError "Request to the model timed out. Please try again.".




(** [str(e)] of the exception an upstream result raises in the [try] body. *)
Definition failure_text (r : upstream_result) : option string :=
  match r with
  | UText _ => None
  | URaise msg => Some msg
  | UTimeout => Some "API request timed out after 90 seconds"
  end.


(** The key [get_random_api_key] returns for a draw (the empty string stands
    for the raise on an empty pool). *)
Definition pick_key (api_keys : list string) (draw : nat) : string :=
  match get_random_api_key api_keys draw with
  | inr k => k
  | inl _ => ""
  end.

(** A failed attempt that the handler does not abort on. *)
Definition retryable (r : upstream_result) : bool :=
  match failure_text r with
  | Some str_e => negb (contains "too many tokens" (lower str_e))
  | None => false
  end.

(** How the coordinator ends on the attempt it stops at. *)
Definition outcome_of (message : string) (r : upstream_result) : direct_result :=
  match r with
  | UText answer => DReturn answer (len message / 4 + len answer / 4)
  | _ =>
      if retryable r then DRaise (classify_final (default "" (failure_text r)))
      else DRaise (Exn ValueError "Too many tokens to make completion")
  end.

(** Attempts made, given the results of the first and the second. *)
Definition attempts_made (r0 r1 : upstream_result) : nat :=
  if retryable r0 then (if retryable r1 then 3 else 2) else 1.

(** Keys of the upstream calls in an effect log, in order. *)
Definition call_keys (effs : list effect) : list string :=
  omap (fun e => match e with ECall _ k _ => Some k | _ => None end) effs.

(** What the caller of [process_prompt] receives for the way the coordinator
    ended. *)
Definition delivered (r : direct_result) : output :=
  match r with
  | DReturn answer n => ReturnedResult (Some (answer, n))
  | DNone => ReturnedResult None
  | DRaise e => Raised e
  end.

(** The same data with every priority set to 0. *)
Definition strip_request (r : Request) : Request := (r.1.1, r.1.2, 0).

Definition strip_pc (pc : worker_pc) : worker_pc :=
  match pc with
  | WProcessing i m _ => WProcessing i m 0
  | _ => pc
  end.

Definition strip_state (st : State) : State :=
  mkState (api_keys st) (current_queue_size st) (strip_request <$> request_queue st)
    (request_results st) (queue_worker_running st) (queue_worker_task st)
    (strip_pc <$> workers st) (waiters st).

Definition strip_output (o : output) : output :=
  match o with
  | LogAdded r => LogAdded (strip_request r)
  | LogProcessing r => LogProcessing (strip_request r)
  | _ => o
  end.

Definition strip_event (ev : event) : event :=
  match ev with
  | EvSubmit message _ wait_for_result timeout e =>
      EvSubmit message 0 wait_for_result timeout e
  | _ => ev
  end.

(** Does the character occur nowhere in the string? *)
Fixpoint free_of (c : ascii) (s : string) : bool :=
  match s with
  | EmptyString => true
  | String c' s' => negb (Ascii.eqb c c') && free_of c s'
  end.

(** Is the invocation inside the [async with] block? *)
Definition in_body (pc : Limiter.task_pc) : bool :=
  match pc with
  | Limiter.TBody _ _ => true
  | _ => false
  end.

(** Permits taken and given back by invocation [i] along a schedule, read off
    the counter of the semaphore: a step of [i] that lowers [_value] is an
    [acquire] of its own, one that raises it a [release]. *)
Fixpoint acquires (api_keys : list string) (s : Limiter.state)
    (schedule : list (nat * attempt_env)) (i : nat) : nat :=
  match schedule with
  | [] => 0
  | (j, e) :: schedule' =>
      let s' := Limiter.step api_keys s j e in
      ((if Nat.eqb j i && Z.ltb (Limiter.sem_value s') (Limiter.sem_value s)
        then 1 else 0)
       + acquires api_keys s' schedule' i)%nat
  end.

Fixpoint releases (api_keys : list string) (s : Limiter.state)
    (schedule : list (nat * attempt_env)) (i : nat) : nat :=
  match schedule with
  | [] => 0
  | (j, e) :: schedule' =>
      let s' := Limiter.step api_keys s j e in
      ((if Nat.eqb j i && Z.ltb (Limiter.sem_value s) (Limiter.sem_value s')
        then 1 else 0)
       + releases api_keys s' schedule' i)%nat
  end.

(** What the place of an invocation says of its permit: taken once it is past
    the entry, given back once it has left the block. *)
Definition taken (pc : option Limiter.task_pc) : nat :=
  match pc with
  | Some (Limiter.TBody _ _) | Some (Limiter.TDone _) => 1
  | _ => 0
  end.

Definition given_back (pc : option Limiter.task_pc) : nat :=
  match pc with
  | Some (Limiter.TDone _) => 1
  | _ => 0
  end.

(** What holds of an invocation wherever it stands: inside the block the
    loop test still passes, and it has not left the block by falling off the
    loop. *)
Definition task_ok (pc : Limiter.task_pc) : Prop :=
  match pc with
  | Limiter.TEntry _ => True
  | Limiter.TBody _ retry_count => (retry_count < MAX_RETRIES)%nat
  | Limiter.TDone r => r <> DNone
  end.

(* ===================================================================== *)
(** * Concrete runs *)
(* ===================================================================== *)

Module Scenario.

(** Readings of a call that starts at [clock] (microseconds): the queue
    timestamp and the two later clock readings follow within the same
    millisecond. *)
Definition submit_at (clock draw : Z) : submit_env :=
  SubmitEnv clock draw (clock + 50) (clock + 60) (clock + 70).

(** An upstream service that does the same thing on every call. *)
Definition always (r : upstream_result) : nat -> attempt_env := fun _ =>
  AttemptEnv 0 (ListOnce ["models/gemini-1.5-flash"]) (fun _ _ _ => r) 0.

(** An upstream service that is overloaded once and then rejects the payload. *)
Definition overloaded_then_too_large : nat -> attempt_env := fun k =>
  AttemptEnv 0 (ListOnce ["models/gemini-1.5-flash"])
    (fun _ _ _ => if (k =? 0)%nat then URaise "429 Overloaded"
                  else URaise "400 Too many tokens") 0.

Definition t0 : Z := 1700000000100000.

(** A fire-and-forget request that the worker completes at once. *)
Definition served_at_once : list event :=
  [EvSubmit "Make slides" 3 false 120 (submit_at t0 1234);
   EvWorker 0 (WorkerEnv (always (UText "Slide 1")) (t0 + 100000));
   EvWorker 0 (WorkerEnv (always (UText "Slide 1")) (t0 + 200000));
   EvWorker 0 (WorkerEnv (always (UText "Slide 1")) (t0 + 300000))].

(** A second call in the same second that draws the same number. *)
Definition same_second_same_draw : event :=
  EvSubmit "Other slides" 3 false 120 (submit_at (t0 + 800000) 1234).

(** A hundred fire-and-forget requests and no worker step. *)
Definition fill_queue : list event :=
  (fun i => EvSubmit "Make slides" 3 false 120
              (submit_at t0 (1000 + Z.of_nat i))) <$> seq 0 100.

(** With the worker busy on a first request, a second caller waits one
    second and gives up. *)
Definition second_times_out_first : list event :=
  [EvSubmit "First" 3 false 120 (submit_at t0 1111);
   EvWorker 0 (WorkerEnv (always (UText "Slide 1")) t0);
   EvWorker 0 (WorkerEnv (always (UText "Slide 1")) t0);
   EvSubmit "Second" 3 true 1 (submit_at (t0 + 200000) 2222);
   EvWake 0 (t0 + 1500000)].



End Scenario.

(* ===================================================================== *)
(** * The retry coordinator: attempts and token estimate *)
(* ===================================================================== *)

Section Coordinator.

Variable keys : list string.
Variable message : string.

Lemma key_error_text d err :
  get_random_api_key keys d = inl err ->
  keys = [] /\ err = Exn ValueError "No Gemini API keys available".
Proof.
  unfold get_random_api_key. destruct keys; [intros [= <-]; auto | discriminate].
Qed.

Lemma key_error_not_ptl :
  contains "too many tokens" (lower "No Gemini API keys available") = false.
Proof. reflexivity. Qed.

Lemma timeout_text_not_ptl :
  contains "too many tokens" (lower "API request timed out after 90 seconds") = false.
Proof. reflexivity. Qed.

Lemma upstream_calls_app a b :
  upstream_calls (a ++ b) = (upstream_calls a + upstream_calls b)%nat.
Proof. unfold upstream_calls. by rewrite List.filter_app, length_app. Qed.

Lemma has_ptl_app a b : has_ptl (a ++ b) = has_ptl a || has_ptl b.
Proof. apply existsb_app. Qed.

Lemma ptl_is_last_app a b :
  has_ptl a = false -> ptl_is_last (a ++ b) = ptl_is_last b.
Proof.
  induction a as [|[| m k r |] a IH]; simpl; auto.
  destruct (payload_too_large r); [discriminate | auto].
Qed.

(** The shape of the [try] body's log: an optional model listing, then the
    one call. *)
Lemma try_body_effects rc e :
  let '(res, effs) := try_body keys message rc e in
  (effs = [] /\ keys = [] /\ res = inl "No Gemini API keys available") \/
  (exists pre m k r,
     effs = pre ++ [ECall m k r] /\ upstream_calls pre = 0%nat /\
     has_ptl pre = false /\
     match r with
     | UText a => res = inr (a, len message / 4 + len a / 4)
     | URaise s => res = inl s
     | UTimeout => res = inl "API request timed out after 90 seconds"
     end).
Proof.
  unfold try_body.
  destruct (get_random_api_key keys (key_draw e)) as [err|k] eqn:Hk.
  - apply key_error_text in Hk as [-> ->]. left; auto.
  - cbv zeta.
    destruct (upstream e (select_model rc (models e)) k message) eqn:Hu;
      right;
      exists (if (rc =? 0)%nat then [EListModels] else []),
        (select_model rc (models e)), k;
      eexists; (split; [reflexivity|]);
      repeat split; auto; destruct (rc =? 0)%nat; reflexivity.
Qed.

Lemma loop_iteration_effects rc e :
  let '(ir, effs) := loop_iteration keys message rc e in
  (upstream_calls effs <= 1)%nat /\
  ptl_is_last effs = true /\
  (has_ptl effs = true -> ir = IRaise too_many_tokens_error) /\
  (forall rc', ir = IContinue rc' ->
     rc' = S rc /\ (S rc < MAX_RETRIES)%nat /\ has_ptl effs = false).
Proof.
  unfold loop_iteration.
  pose proof (try_body_effects rc e) as H.
  destruct (try_body keys message rc e) as [res effs].
  destruct H as [(-> & Hkeys & ->) | (pre & m & k & r & -> & Hpre & Hnp & Hr)].
  - rewrite key_error_not_ptl.
    destruct (S rc <? MAX_RETRIES)%nat.
    + rewrite Hkeys; simpl. repeat split; auto; discriminate.
    + repeat split; auto; discriminate.
  - assert (Hc : upstream_calls (pre ++ [ECall m k r]) = 1%nat)
      by (rewrite upstream_calls_app, Hpre; reflexivity).
    assert (Hl : ptl_is_last (pre ++ [ECall m k r]) = true).
    { rewrite ptl_is_last_app by done. simpl. by destruct (payload_too_large r). }
    assert (Hh : has_ptl (pre ++ [ECall m k r]) = payload_too_large r).
    { rewrite has_ptl_app, Hnp. simpl. by rewrite orb_false_r. }
    destruct r as [a | s |]; simpl in Hr; subst res.
    + rewrite Hc, Hl, Hh. simpl. repeat split; auto; discriminate.
    + simpl in Hh.
      destruct (contains "too many tokens" (lower s)) eqn:Hptl.
      * rewrite Hc, Hl. repeat split; auto; discriminate.
      * destruct (S rc <? MAX_RETRIES)%nat eqn:Hlt.
        -- apply Nat.ltb_lt in Hlt. destruct (get_random_api_key keys (retry_key_draw e)).
           ++ rewrite Hc, Hl, Hh. repeat split; auto; discriminate.
           ++ rewrite upstream_calls_app, Hc, has_ptl_app, Hh.
              rewrite (ptl_is_last_app _ [ESleep _]) by (by rewrite Hh).
              simpl. repeat split; auto; try discriminate. congruence.
        -- rewrite Hc, Hl, Hh. repeat split; auto; discriminate.
    + rewrite timeout_text_not_ptl.
      destruct (S rc <? MAX_RETRIES)%nat eqn:Hlt.
      * apply Nat.ltb_lt in Hlt. destruct (get_random_api_key keys (retry_key_draw e)).
        -- rewrite Hc, Hl, Hh. repeat split; auto; discriminate.
        -- rewrite upstream_calls_app, Hc, has_ptl_app, Hh.
           rewrite (ptl_is_last_app _ [ESleep _]) by (by rewrite Hh).
           simpl. repeat split; auto; try discriminate. congruence.
      * rewrite Hc, Hl, Hh. repeat split; auto; discriminate.
Qed.

Lemma ptl_call_is_last effs pre m k res post :
  ptl_is_last effs = true ->
  effs = pre ++ ECall m k res :: post ->
  payload_too_large res = true ->
  post = [].
Proof.
  intros Hl -> Hp. induction pre as [|[| m' k' r' |] pre IH]; simpl in Hl; auto.
  - rewrite Hp in Hl. by destruct post.
  - destruct (payload_too_large r'); auto. by destruct pre.
Qed.

Variable env : nat -> attempt_env.

Lemma direct_loop_effects fuel : forall rc,
  let '(r, effs) := direct_loop fuel keys message env rc in
  (upstream_calls effs <= MAX_RETRIES - rc)%nat /\
  ptl_is_last effs = true /\
  (has_ptl effs = true -> r = DRaise too_many_tokens_error).
Proof.
  induction fuel as [|fuel IH]; intros rc; cbn [direct_loop].
  - repeat split; [apply Nat.le_0_l | discriminate].
  - destruct (rc <? MAX_RETRIES)%nat eqn:Hrc;
      [|repeat split; [apply Nat.le_0_l | discriminate]].
    apply Nat.ltb_lt in Hrc.
    pose proof (loop_iteration_effects rc (env rc)) as H.
    destruct (loop_iteration keys message rc (env rc)) as [[a n | e | rc'] effs].
    + destruct H as (Hc & Hl & Hh & _). repeat split; auto; [lia|].
      intros Hp. by specialize (Hh Hp).
    + destruct H as (Hc & Hl & Hh & _). repeat split; auto; [lia|].
      intros Hp. specialize (Hh Hp). congruence.
    + destruct H as (Hc & Hl & _ & Hk).
      destruct (Hk rc' eq_refl) as (-> & Hlt & Hnp).
      specialize (IH (S rc)).
      destruct (direct_loop fuel keys message env (S rc)) as [r effs'].
      destruct IH as (Hc' & Hl' & Hh').
      rewrite upstream_calls_app, has_ptl_app, Hnp, ptl_is_last_app by done.
      repeat split; auto. lia.
Qed.

(** [MAX_RETRIES] passes are enough: the loop is left by [return] or [raise]. *)
Lemma direct_loop_ends fuel : forall rc,
  (rc < MAX_RETRIES)%nat -> (MAX_RETRIES <= fuel + rc)%nat ->
  fst (direct_loop fuel keys message env rc) <> DNone.
Proof.
  induction fuel as [|fuel IH]; intros rc Hrc Hfuel; simpl; [lia|].
  apply Nat.ltb_lt in Hrc as Hrc'. rewrite Hrc'.
  pose proof (loop_iteration_effects rc (env rc)) as H.
  destruct (loop_iteration keys message rc (env rc)) as [[a n | e | rc'] effs];
    [done | done |].
  destruct H as (_ & _ & _ & Hk). destruct (Hk rc' eq_refl) as (-> & Hlt & _).
  specialize (IH (S rc) Hlt ltac:(lia)).
  by destruct (direct_loop fuel keys message env (S rc)).
Qed.

End Coordinator.

Lemma loop_iteration_return keys message rc e answer n effs :
  loop_iteration keys message rc e = (IReturn answer n, effs) ->
  (exists pre m k, effs = pre ++ [ECall m k (UText answer)]) /\
  n = len message / 4 + len answer / 4.
Proof.
  unfold loop_iteration.
  pose proof (try_body_effects keys message rc e) as H.
  destruct (try_body keys message rc e) as [[s | [a t]] effs0].
  - destruct (contains "too many tokens" (lower s)); [discriminate|].
    destruct (S rc <? MAX_RETRIES)%nat; [|discriminate].
    destruct (get_random_api_key keys (retry_key_draw e)); discriminate.
  - intros [= -> -> ->].
    destruct H as [(_ & _ & ?) | (pre & m & k & r & -> & _ & _ & Hr)]; [discriminate|].
    destruct r; try discriminate. injection Hr as -> ->. eauto.
Qed.

Lemma direct_loop_return keys message env fuel : forall rc answer n effs,
  direct_loop fuel keys message env rc = (DReturn answer n, effs) ->
  (exists pre m k, effs = pre ++ [ECall m k (UText answer)]) /\
  n = len message / 4 + len answer / 4.
Proof.
  induction fuel as [|fuel IH]; intros rc answer n effs; cbn [direct_loop];
    [discriminate|].
  destruct (rc <? MAX_RETRIES)%nat; [|discriminate].
  destruct (loop_iteration keys message rc (env rc)) as [[a t | e | rc'] effs0] eqn:Hit.
  - intros [= -> -> ->]. eapply loop_iteration_return; eauto.
  - discriminate.
  - destruct (direct_loop fuel keys message env rc') as [r effs'] eqn:Hrec.
    intros [= -> <-]. apply IH in Hrec as [(pre & m & k & ->) ->].
    split; [|done]. exists (effs0 ++ pre), m, k. by rewrite app_assoc.
Qed.

(** The floor of a sum is the sum of the floors, or one more. *)
Lemma floor_quarters (a b : Z) :
  (a + b) / 4 - 1 <= a / 4 + b / 4 <= (a + b) / 4.
Proof. Z.to_euclidean_division_equations; lia. Qed.

(* ===================================================================== *)
(** * The limiter: conservation of permits *)
(* ===================================================================== *)

Module LimiterFacts.
Import Limiter.

Lemma sum_held_insert ts : forall i pc pc',
  ts !! i = Some pc ->
  sum_held (<[i := pc']> ts) = sum_held ts - held pc + held pc'.
Proof.
  induction ts as [|t ts IH]; intros [|i] pc pc' Hi; simpl in *; try discriminate.
  - injection Hi as ->. lia.
  - rewrite (IH _ _ pc' Hi). lia.
Qed.

Lemma sum_held_nonneg ts : 0 <= sum_held ts.
Proof. induction ts as [|[] ts IH]; simpl; lia. Qed.

Lemma sum_held_entry messages : sum_held (TEntry <$> messages) = 0.
Proof. induction messages; simpl; auto. Qed.

(** One step keeps [_value] non-negative and the permits accounted for. *)
Lemma step_conserves keys s i e :
  0 <= sem_value s ->
  0 <= sem_value (step keys s i e) /\
  sem_value (step keys s i e) + sum_held (tasks (step keys s i e))
  = sem_value s + sum_held (tasks s).
Proof.
  intros Hv. unfold step.
  destruct (tasks s !! i) as [[m | m rc | r]|] eqn:Hi; auto.
  - destruct (0 <? sem_value s) eqn:Hpos; auto. apply Z.ltb_lt in Hpos.
    simpl. rewrite (sum_held_insert _ _ _ _ Hi). simpl. lia.
  - destruct (rc <? MAX_RETRIES)%nat;
      [destruct (fst (loop_iteration keys m rc e))|];
      simpl; rewrite (sum_held_insert _ _ _ _ Hi); simpl; lia.
Qed.

Lemma run_conserves keys schedule : forall s,
  0 <= sem_value s ->
  0 <= sem_value (run keys s schedule) /\
  sem_value (run keys s schedule) + sum_held (tasks (run keys s schedule))
  = sem_value s + sum_held (tasks s).
Proof.
  induction schedule as [|[i e] schedule IH]; intros s Hv; simpl; auto.
  destruct (step_conserves keys s i e Hv) as [Hv' Heq].
  destruct (IH _ Hv') as [Hv'' Heq']. split; [done | lia].
Qed.

Lemma max_concurrent_pos keys : 0 < MAX_CONCURRENT_REQUESTS keys.
Proof. destruct keys; simpl; lia. Qed.

End LimiterFacts.

(* ===================================================================== *)
(** * The system: what every schedule preserves *)
(* ===================================================================== *)

Section SystemInvariant.

Lemma ids_app (outs o : list output) :
  added_ids (outs ++ o) = added_ids outs ++ added_ids o /\
  processing_ids (outs ++ o) = processing_ids outs ++ processing_ids o /\
  stored_ids (outs ++ o) = stored_ids outs ++ stored_ids o.
Proof. unfold added_ids, processing_ids, stored_ids. by rewrite !omap_app. Qed.

Lemma silent_app o1 o2 : silent o1 -> silent o2 -> silent (o1 ++ o2).
Proof.
  intros (A1 & P1 & S1) (A2 & P2 & S2). unfold silent.
  destruct (ids_app o1 o2) as (-> & -> & ->).
  by rewrite A1, A2, P1, P2, S1, S2.
Qed.

Lemma inv_frame st st' outs o :
  frame st st' -> silent o -> system_inv st outs -> system_inv st' (outs ++ o).
Proof.
  intros (Hw & Ht & Hs & Hq) (A & P & S) (I1 & I2 & I3 & I4 & I5 & I6).
  unfold system_inv. destruct (ids_app outs o) as (-> & -> & ->).
  rewrite Hw, Ht, Hs, Hq, A, P, S, !app_nil_r. done.
Qed.

Lemma frame_refl st : frame st st.
Proof. done. Qed.

Lemma frame_trans a b c : frame a b -> frame b c -> frame a c.
Proof.
  intros (H1 & H2 & H3 & H4) (G1 & G2 & G3 & G4).
  unfold frame. by rewrite G1, G2, G3, G4.
Qed.

Lemma wait_check_frame st w clock :
  frame st (wait_check st w clock).1 /\ silent (wait_check st w clock).2 /\
  waiters (wait_check st w clock).1 = waiters st.
Proof.
  unfold wait_check.
  destruct (clock - w_start_time w <? w_timeout w * 1000000).
  - destruct (request_results st !! w_request_id w) as [r|]; [|done].
    by destruct (status r).
  - by destruct (request_results st !! w_request_id w).
Qed.

Lemma wake_inv st caller clock outs :
  system_inv st outs ->
  system_inv (wake st caller clock).1 (outs ++ (wake st caller clock).2).
Proof.
  unfold wake.
  destruct (waiters st !! caller) as [[w|]|];
    [|rewrite app_nil_r; done..].
  destruct (wait_check_frame st w clock) as (Hf & Hs & _).
  destruct (wait_check st w clock) as [st' o]; simpl in *.
  apply inv_frame; auto.
  destruct (suspended o); [done|]. eapply frame_trans; [exact Hf | done].
Qed.

Lemma reaper_inv st now outs :
  system_inv st outs -> system_inv (cleanup_old_results st now) (outs ++ []).
Proof. by apply inv_frame. Qed.

Lemma added_ids_app a b : added_ids (a ++ b) = added_ids a ++ added_ids b.
Proof. apply ids_app. Qed.

Lemma processing_ids_app a b :
  processing_ids (a ++ b) = processing_ids a ++ processing_ids b.
Proof. apply ids_app. Qed.

Lemma stored_ids_app a b : stored_ids (a ++ b) = stored_ids a ++ stored_ids b.
Proof. apply ids_app. Qed.

Ltac ids_simpl :=
  unfold system_inv;
  rewrite ?added_ids_app, ?processing_ids_app, ?stored_ids_app; simpl.

Lemma worker_inv st i e outs :
  system_inv st outs ->
  system_inv (queue_worker st i e).1 (outs ++ (queue_worker st i e).2).
Proof.
  intros Hinv. unfold queue_worker.
  destruct (workers st !! i) as [pc|] eqn:Hi; [|simpl; by rewrite app_nil_r].
  assert (Hws : workers st = [pc] /\ i = 0%nat).
  { destruct Hinv as (I1 & _).
    destruct (workers st) as [|a [|b l]]; simpl in *; [done | | lia].
    destruct i; simpl in Hi; [by injection Hi as -> | done]. }
  destruct Hws as [Hws ->].
  destruct Hinv as (I1 & I2 & I3 & I4 & I5 & I6).
  assert (I2' : queue_worker_task st = None -> [pc] = []) by (by rewrite <- Hws).
  rewrite Hws in I5, I6.
  destruct pc as [| |rid msg prio|]; simpl in *; try rewrite app_nil_r in I6.
  - ids_simpl. rewrite Hws; simpl. rewrite !app_nil_r.
    repeat split; auto. intros Hn. by specialize (I2' Hn).
  - destruct (request_queue st) as [|[[rid msg] prio] q] eqn:Hq; simpl in *.
    + rewrite app_nil_r in I5.
      ids_simpl. rewrite Hws, Hq; simpl. rewrite !app_nil_r. repeat split; auto.
    + ids_simpl. rewrite Hws; simpl.
      repeat split; auto; try lia.
      * intros Hn. by specialize (I2' Hn).
      * rewrite I5. by rewrite !app_nil_r.
      * rewrite I6. by rewrite !app_nil_r.
  - destruct (process_prompt_direct (api_keys st) msg (attempts e)) as [r effs].
    assert (Hl : stored_ids [worker_log r rid] = [rid]) by (by destruct r).
    assert (Ha : added_ids [worker_log r rid] = []) by (by destruct r).
    assert (Hp : processing_ids [worker_log r rid] = []) by (by destruct r).
    unfold system_inv; cbn [fst snd].
    rewrite added_ids_app, processing_ids_app, stored_ids_app, Hl, Ha, Hp.
    simpl. rewrite Hws; simpl. rewrite !app_nil_r.
    repeat split; auto.
    + intros Hn. by specialize (I2' Hn).
    + rewrite I5. by rewrite <- app_assoc.
  - ids_simpl. rewrite Hws; simpl. rewrite !app_nil_r.
    repeat split; auto. intros Hn. by specialize (I2' Hn).
Qed.

Lemma spawn_inv st outs :
  system_inv st outs -> queue_worker_task st = None ->
  system_inv (spawn_worker st) (outs ++ [LogWorkerStarted]).
Proof.
  intros (I1 & I2 & I3 & I4 & I5 & I6) Hn. specialize (I2 Hn).
  rewrite I2 in I5, I6. simpl in I5, I6. rewrite app_nil_r in I6.
  ids_simpl. rewrite I2; simpl. rewrite !app_nil_r.
  repeat split; auto. discriminate.
Qed.

Lemma admission_inv st message priority e outs :
  system_inv st outs ->
  system_inv (admission st message priority e).1.2
    (outs ++ (admission st message priority e).2).
Proof.
  intros Hinv. unfold admission, after_worker_start.
  set (c := negb (queue_worker_running st)
            && bool_decide (queue_worker_task st = None)).
  assert (H0 : system_inv (if c then (spawn_worker st, [LogWorkerStarted])
                           else (st, [])).1
                 (outs ++ (if c then (spawn_worker st, [LogWorkerStarted])
                           else (st, [])).2)).
  { destruct c eqn:Hc; simpl; [|by rewrite app_nil_r].
    apply spawn_inv; [done|]. subst c.
    apply andb_true_iff in Hc as [_ Hc]. by apply bool_decide_eq_true in Hc. }
  destruct (if c then (spawn_worker st, [LogWorkerStarted]) else (st, []))
    as [st0 out0]; simpl in H0.
  destruct (MAX_QUEUE_SIZE <=? current_queue_size st0) eqn:Hfull; cbn [fst snd].
  - rewrite app_assoc. by apply (inv_frame st0).
  - apply Z.leb_gt in Hfull.
    rewrite app_assoc. revert H0. generalize (outs ++ out0) as o.
    intros o (I1 & I2 & I3 & I4 & I5 & I6).
    ids_simpl. rewrite !app_nil_r, length_app, fmap_app; simpl.
    repeat split; auto; try lia.
    rewrite I5. by rewrite <- !app_assoc.
Qed.

Lemma process_prompt_inv st message priority wait timeout e outs :
  system_inv st outs ->
  system_inv (process_prompt st message priority wait timeout e).1
    (outs ++ (process_prompt st message priority wait timeout e).2).
Proof.
  intros Hinv. unfold process_prompt.
  pose proof (admission_inv st message priority e outs Hinv) as H.
  destruct (admission st message priority e) as [[[err | rid] st1] o1]; simpl in H.
  - simpl. rewrite app_assoc. by apply (inv_frame st1).
  - destruct wait; simpl.
    + set (w := mkWaiter rid (start_clock e) timeout).
      destruct (wait_check_frame st1 w (check_clock e)) as (Hf & Hs & _).
      destruct (wait_check st1 w (check_clock e)) as [st2 o2]; simpl in *.
      rewrite app_assoc. apply (inv_frame st1); auto.
    + rewrite app_assoc. by apply (inv_frame st1).
Qed.

Lemma step_inv st ev outs :
  system_inv st outs -> system_inv (step st ev).1 (outs ++ (step st ev).2).
Proof.
  destruct ev; simpl.
  - apply process_prompt_inv.
  - apply wake_inv.
  - apply worker_inv.
  - apply reaper_inv.
Qed.

Lemma exec_inv evs : forall st outs,
  system_inv st outs -> system_inv (exec st evs).1 (outs ++ (exec st evs).2).
Proof.
  induction evs as [|ev evs IH]; intros st outs Hinv; simpl.
  - by rewrite app_nil_r.
  - pose proof (step_inv st ev outs Hinv) as H1.
    destruct (step st ev) as [st1 o1]; simpl in H1.
    specialize (IH st1 (outs ++ o1) H1).
    destruct (exec st1 evs) as [st2 o2]; simpl in *. by rewrite app_assoc.
Qed.

Lemma initial_inv keys : system_inv (initial_state keys) [].
Proof. unfold system_inv, MAX_QUEUE_SIZE; simpl. repeat split; auto. lia. Qed.

End SystemInvariant.

(* ===================================================================== *)
(** * The facade: admission and its record *)
(* ===================================================================== *)

Section Facade.

Variable st : State.
Variable message : string.
Variable priority : Z.
Variable e : submit_env.

Let request_id := generate_request_id (id_clock e) (id_draw e).
Let request : Request := (request_id, message, priority).

Lemma after_worker_start_frame :
  current_queue_size (after_worker_start st).1 = current_queue_size st /\
  request_queue (after_worker_start st).1 = request_queue st /\
  request_results (after_worker_start st).1 = request_results st /\
  ((after_worker_start st).2 = [] \/ (after_worker_start st).2 = [LogWorkerStarted]).
Proof.
  unfold after_worker_start.
  destruct (negb (queue_worker_running st)
            && bool_decide (queue_worker_task st = None)); simpl; auto.
Qed.

(** [admission], branch by branch. *)
Lemma admission_spec :
  admission st message priority e =
  let '(st0, out) := after_worker_start st in
  if MAX_QUEUE_SIZE <=? current_queue_size st then
    (inl queue_full_error, st0, out ++ [LogQueueFull])
  else
    (inr request_id,
     set_results (insert request_id (queued_record (queued_now e)))
       (set_queue (current_queue_size st + 1) (request_queue st ++ [request]) st0),
     out ++ [LogAdded request]).
Proof.
  unfold admission, after_worker_start.
  destruct (negb (queue_worker_running st)
            && bool_decide (queue_worker_task st = None)); reflexivity.
Qed.

(** The first pass of the wait loop finds the record just written. *)
Lemma wait_check_queued (s : State) (w : waiter) (clock : Z) (r : ResultRecord) :
  request_results s !! w_request_id w = Some r -> status r = Queued ->
  wait_check s w clock =
  if clock - w_start_time w <? w_timeout w * 1000000 then (s, [Suspended])
  else
    (set_results
       (insert (w_request_id w)
          (mkRecord Timeout (queued_at r) (result r) (error r) (error_type r)
             (completed_at r))) s,
     [LogTimedOut (w_request_id w); Raised (wait_timeout_error (w_timeout w))]).
Proof. intros Hr Hs. unfold wait_check. by rewrite Hr, Hs. Qed.

End Facade.

(* ===================================================================== *)
(** * Admission against the capacity *)
(* ===================================================================== *)

(** C1. A call of [process_prompt] is admitted when the tracked queue size is
    below [MAX_QUEUE_SIZE = 100]: the request is appended to the queue and the
    counter grows by one.  At or above the capacity the call raises the
    queue-full [OverflowError] before any suspension, and leaves counter and
    queue as they were. *)
Theorem process_prompt_capacity (st : State) (message : string) (priority : Z)
    (wait_for_result : bool) (timeout : Z) (e : submit_env) :
  let request := (generate_request_id (id_clock e) (id_draw e), message, priority) in
  MAX_QUEUE_SIZE = 100 /\
  let '(st', outs) := process_prompt st message priority wait_for_result timeout e in
  if current_queue_size st <? MAX_QUEUE_SIZE then
    request_queue st' = request_queue st ++ [request] /\
    current_queue_size st' = current_queue_size st + 1 /\
    LogAdded request ∈ outs /\
    Raised queue_full_error ∉ outs
  else
    outs = (after_worker_start st).2 ++ [LogQueueFull; Raised queue_full_error] /\
    exn_type queue_full_error = OverflowError /\
    current_queue_size st' = current_queue_size st /\
    request_queue st' = request_queue st.
Proof.
  cbv zeta. split; [reflexivity|].
  unfold process_prompt. rewrite admission_spec.
  destruct (after_worker_start_frame st) as (Hs & Hq & _ & Ho).
  destruct (after_worker_start st) as [st0 out0]; simpl in Hs, Hq, Ho.
  rewrite Z.leb_antisym.
  destruct (current_queue_size st <? MAX_QUEUE_SIZE); simpl.
  - set (rid := generate_request_id (id_clock e) (id_draw e)).
    set (st1 := set_results _ _).
    assert (Hout0 : Raised queue_full_error ∉ out0 ++ [LogAdded (rid, message, priority)]).
    { intros [Hin | Hin]%elem_of_app.
      - destruct Ho as [-> | ->]; [by apply elem_of_nil in Hin|].
        by apply list_elem_of_singleton in Hin.
      - by apply list_elem_of_singleton in Hin. }
    destruct wait_for_result; simpl.
    + rewrite (wait_check_queued st1 _ _ (queued_record (queued_now e)));
        [|apply lookup_insert_eq | done].
      simpl.
      destruct (check_clock e - start_clock e <? timeout * 1000000); simpl.
      * repeat split; auto.
        -- apply elem_of_app; left. apply elem_of_app; right. by left.
        -- intros [Hin | Hin]%elem_of_app; [done|].
           by apply list_elem_of_singleton in Hin.
      * repeat split; auto.
        -- apply elem_of_app; left. apply elem_of_app; right. by left.
        -- intros [Hin | Hin]%elem_of_app; [done|].
           apply elem_of_cons in Hin as [Hin | Hin]; [done|].
           by apply list_elem_of_singleton in Hin.
    + repeat split; auto.
      * apply elem_of_app; left. apply elem_of_app; right. by left.
      * intros [Hin | Hin]%elem_of_app; [done|].
        by apply list_elem_of_singleton in Hin.
  - rewrite <- app_assoc. auto.
Qed.

(* ===================================================================== *)
(** * The record of a submission *)
(* ===================================================================== *)

(** C6, as stated, fails.  With a hundred requests queued, one more call is
    refused with the queue-full error, and the result store holds no record
    under the identifier generated for it. *)
Lemma rejected_submit_leaves_no_record :
  let full := (exec (initial_state ["k1"]) Scenario.fill_queue).1 in
  let r := process_prompt full "One more" 3 false 120
             (Scenario.submit_at (Scenario.t0 + 1000000) 5000) in
  current_queue_size full = 100 /\
  r.2 = [LogQueueFull; Raised queue_full_error] /\
  generate_request_id (Scenario.t0 + 1000000) 5000 = "req_1700000001_5000" /\
  request_results r.1 !! "req_1700000001_5000" = None.
Proof. vm_compute. repeat split; reflexivity. Qed.

(** C6, amended.  A call that is admitted writes the [Queued] record of its
    identifier at admission (the record reads [Timeout] when the call waits
    and its first loop test is already past the timeout).  A call refused as
    queue-full writes no record: store and queue are as before, so the worker
    never sees the request. *)
Theorem submit_record (st : State) (message : string) (priority : Z)
    (wait_for_result : bool) (timeout : Z) (e : submit_env) :
  let request_id := generate_request_id (id_clock e) (id_draw e) in
  let expired :=
    wait_for_result && negb (check_clock e - start_clock e <? timeout * 1000000) in
  let '(st', outs) := process_prompt st message priority wait_for_result timeout e in
  if current_queue_size st <? MAX_QUEUE_SIZE then
    request_results (admission st message priority e).1.2
    = <[request_id := queued_record (queued_now e)]> (request_results st) /\
    request_results st' !! request_id
    = Some (mkRecord (if expired then Timeout else Queued)
              (Some (queued_now e)) None None None None)
  else
    last outs = Some (Raised queue_full_error) /\
    request_results st' = request_results st /\
    request_queue st' = request_queue st.
Proof.
  cbv zeta. unfold process_prompt. rewrite admission_spec.
  destruct (after_worker_start_frame st) as (Hs & Hq & Hr & Ho).
  destruct (after_worker_start st) as [st0 out0]; simpl in Hs, Hq, Hr, Ho.
  rewrite Z.leb_antisym.
  destruct (current_queue_size st <? MAX_QUEUE_SIZE); simpl.
  - set (rid := generate_request_id (id_clock e) (id_draw e)).
    set (st1 := set_results _ _).
    assert (H1 : request_results st1
                 = <[rid := queued_record (queued_now e)]> (request_results st))
      by (subst st1; simpl; by rewrite Hr).
    destruct wait_for_result; simpl.
    + rewrite (wait_check_queued st1 _ _ (queued_record (queued_now e)));
        [|apply lookup_insert_eq | done].
      simpl.
      destruct (check_clock e - start_clock e <? timeout * 1000000); simpl.
      * split; [done|]. rewrite Hr. apply lookup_insert_eq.
      * split; [done|]. apply lookup_insert_eq.
    + split; [done|]. rewrite Hr. apply lookup_insert_eq.
  - rewrite last_snoc. auto.
Qed.

(* ===================================================================== *)
(** * Request identifiers *)
(* ===================================================================== *)

(** C9, the failing run.  Two calls in the same second that draw the same
    number get the same identifier; the second call overwrites the record of
    the first, which is still queued: two queue items, one record, stamped by
    the second call. *)
Theorem request_id_collision :
  let first := EvSubmit "Make slides" 3 false 120
                 (Scenario.submit_at Scenario.t0 1234) in
  let r := exec (initial_state ["k1"]) [first; Scenario.same_second_same_draw] in
  generate_request_id Scenario.t0 1234
  = generate_request_id (Scenario.t0 + 800000) 1234 /\
  r.2 = [LogWorkerStarted;
         LogAdded ("req_1700000000_1234", "Make slides", 3);
         ReturnedId "req_1700000000_1234";
         LogAdded ("req_1700000000_1234", "Other slides", 3);
         ReturnedId "req_1700000000_1234"] /\
  request_queue r.1 = [("req_1700000000_1234", "Make slides", 3);
                       ("req_1700000000_1234", "Other slides", 3)] /\
  map_to_list (request_results r.1)
  = [("req_1700000000_1234", queued_record (Scenario.t0 + 800050))].
Proof. vm_compute. repeat split; reflexivity. Qed.

(** C2, the failing run.  The worker stores the [Completed] record of a
    request; a later call that generates the same identifier sets the record
    of that identifier back to [Queued]. *)
Theorem terminal_record_requeued_on_collision :
  let r1 := exec (initial_state ["k1"]) Scenario.served_at_once in
  let r2 := step r1.1 Scenario.same_second_same_draw in
  request_results r1.1 !! "req_1700000000_1234"
  = Some (mkRecord Completed None (Some ("Slide 1", 3)) None None
            (Some (Scenario.t0 + 300000))) /\
  r2.2 = [LogAdded ("req_1700000000_1234", "Other slides", 3);
          ReturnedId "req_1700000000_1234"] /\
  request_results r2.1 !! "req_1700000000_1234"
  = Some (queued_record (Scenario.t0 + 800050)).
Proof. vm_compute. repeat split; reflexivity. Qed.

(** Where a [Queued] record can come from. *)
Section QueuedRecords.

Implicit Types (st : State) (id : string) (r : ResultRecord).

Lemma wait_check_queued_before st w clock id r :
  request_results (wait_check st w clock).1 !! id = Some r ->
  status r = Queued ->
  request_results st !! id = Some r.
Proof.
  unfold wait_check.
  destruct (clock - w_start_time w <? w_timeout w * 1000000).
  - destruct (request_results st !! w_request_id w) as [d|] eqn:Hd; [|done].
    destruct (status d); simpl; try done;
      intros [_ H]%lookup_delete_Some; done.
  - destruct (request_results st !! w_request_id w) as [d|] eqn:Hd; [|done].
    simpl. intros H Hs.
    apply lookup_insert_Some in H as [[_ <-] | [_ H]]; done.
Qed.

Lemma wake_queued_before st caller clock id r :
  request_results (wake st caller clock).1 !! id = Some r ->
  status r = Queued ->
  request_results st !! id = Some r.
Proof.
  unfold wake. destruct (waiters st !! caller) as [[w|]|]; try done.
  pose proof (wait_check_queued_before st w clock id r) as H.
  destruct (wait_check st w clock) as [st' o]; simpl in *.
  by destruct (suspended o).
Qed.

Lemma worker_queued_before st i e id r :
  request_results (queue_worker st i e).1 !! id = Some r ->
  status r = Queued ->
  request_results st !! id = Some r.
Proof.
  unfold queue_worker.
  destruct (workers st !! i) as [[| |rid msg prio|]|]; simpl; try done.
  - by destruct (request_queue st) as [|[[rid msg] prio] q].
  - destruct (process_prompt_direct (api_keys st) msg (attempts e)) as [d effs].
    simpl. intros H Hs.
    apply lookup_insert_Some in H as [[_ <-] | [_ H]]; [|done].
    by destruct d.
Qed.

Lemma reaper_queued_before st now id r :
  request_results (cleanup_old_results st now) !! id = Some r ->
  request_results st !! id = Some r.
Proof. simpl. by intros [H _]%map_lookup_filter_Some. Qed.

Lemma submit_queued_before st message priority wait timeout e id r :
  request_results (process_prompt st message priority wait timeout e).1 !! id
  = Some r ->
  status r = Queued ->
  id = generate_request_id (id_clock e) (id_draw e) \/
  request_results st !! id = Some r.
Proof.
  destruct (decide (id = generate_request_id (id_clock e) (id_draw e)))
    as [|Hne]; [by left|]. right.
  revert H H0. unfold process_prompt. rewrite admission_spec.
  destruct (after_worker_start_frame st) as (_ & _ & Hr & _).
  destruct (after_worker_start st) as [st0 out0]; simpl in Hr.
  destruct (MAX_QUEUE_SIZE <=? current_queue_size st); simpl.
  - by rewrite Hr.
  - destruct wait; simpl.
    + set (w := mkWaiter _ _ _). set (st1 := set_results _ _).
      pose proof (wait_check_queued_before st1 w (check_clock e) id r) as H.
      destruct (wait_check st1 w (check_clock e)) as [st2 o2]; simpl in *.
      intros H1 H2. specialize (H H1 H2).
      rewrite lookup_insert_ne, Hr in H; done.
    + rewrite lookup_insert_ne, Hr; done.
Qed.

(** A record that is not [Queued] is set back to [Queued] by one step only:
    a call of [process_prompt] that generates the identifier of that record. *)
Lemma requeue_only_by_colliding_submit st ev id r r' :
  request_results st !! id = Some r -> status r <> Queued ->
  request_results (step st ev).1 !! id = Some r' -> status r' = Queued ->
  exists message priority wait timeout e,
    ev = EvSubmit message priority wait timeout e /\
    generate_request_id (id_clock e) (id_draw e) = id.
Proof.
  intros Hr Hs Hr' Hs'. destruct ev as [m p w t e | c k | i e | now]; simpl in Hr'.
  - destruct (submit_queued_before _ _ _ _ _ _ _ _ Hr' Hs') as [-> | H]; [eauto 10|].
    congruence.
  - apply wake_queued_before in Hr'; congruence.
  - apply worker_queued_before in Hr'; congruence.
  - apply reaper_queued_before in Hr'; congruence.
Qed.

End QueuedRecords.

(* ===================================================================== *)
(** * Attempts of the retry coordinator *)
(* ===================================================================== *)

(** C3, as stated, fails.  The first attempt fails as overloaded and is
    retried; the second attempt fails with "too many tokens".  The coordinator
    raises at once, but it has made two upstream calls, not one. *)
Lemma too_large_on_second_attempt :
  let r := process_prompt_direct ["k1"] "Make slides"
             Scenario.overloaded_then_too_large in
  r = (DRaise too_many_tokens_error,
       [EListModels;
        ECall "models/gemini-1.5-flash" "k1" (URaise "429 Overloaded");
        ESleep 2;
        ECall "models/gemini-pro" "k1" (URaise "400 Too many tokens")]) /\
  has_ptl r.2 = true /\
  upstream_calls r.2 = 2%nat.
Proof. vm_compute. repeat split; reflexivity. Qed.

(** C3, amended.  [process_prompt_direct] makes at most [MAX_RETRIES = 3]
    upstream calls and ends by [return] or [raise].  A call that fails with
    "too many tokens" is the last effect of the run: the coordinator raises
    the too-many-tokens [ValueError] with no sleep and no further call, so the
    calls made are that one and those before it; when it is the first attempt
    that fails so, exactly one call is made. *)
Theorem process_prompt_direct_attempts (keys : list string) (message : string)
    (env : nat -> attempt_env) :
  let '(r, effs) := process_prompt_direct keys message env in
  MAX_RETRIES = 3%nat /\
  (upstream_calls effs <= MAX_RETRIES)%nat /\
  r <> DNone /\
  (forall pre m k res post,
     effs = pre ++ ECall m k res :: post -> payload_too_large res = true ->
     post = [] /\ r = DRaise too_many_tokens_error /\
     upstream_calls effs = S (upstream_calls pre)) /\
  (forall k,
     get_random_api_key keys (key_draw (env 0%nat)) = inr k ->
     payload_too_large
       (upstream (env 0%nat) (select_model 0 (models (env 0%nat))) k message)
     = true ->
     r = DRaise too_many_tokens_error /\ upstream_calls effs = 1%nat).
Proof.
  pose proof (direct_loop_effects keys message env MAX_RETRIES 0) as H.
  pose proof (direct_loop_ends keys message env MAX_RETRIES 0) as Hend.
  unfold process_prompt_direct.
  destruct (direct_loop MAX_RETRIES keys message env 0) as [r effs] eqn:Hrun.
  destruct H as (Hc & Hl & Hh).
  assert (Hptl : forall pre m k res post,
             effs = pre ++ ECall m k res :: post -> payload_too_large res = true ->
             post = [] /\ r = DRaise too_many_tokens_error /\
             upstream_calls effs = S (upstream_calls pre)).
  { intros pre m k res post Heq Hp.
    pose proof (ptl_call_is_last _ _ _ _ _ _ Hl Heq Hp) as ->.
    split; [done|]. split.
    - apply Hh. rewrite Heq, has_ptl_app. simpl. rewrite Hp. apply orb_true_r.
    - rewrite Heq, upstream_calls_app.
      change (upstream_calls [ECall m k res]) with 1%nat. lia. }
  split; [reflexivity|]. split; [unfold MAX_RETRIES in *; lia|].
  split; [apply Hend; unfold MAX_RETRIES; lia|]. split; [exact Hptl|].
  intros k Hk Hp.
  assert (Hshape : exists post,
             effs = [EListModels] ++
                    ECall (select_model 0 (models (env 0%nat))) k
                      (upstream (env 0%nat) (select_model 0 (models (env 0%nat)))
                         k message) :: post).
  { revert Hrun. unfold MAX_RETRIES. cbn [direct_loop]. simpl Nat.ltb.
    cbv iota. unfold loop_iteration, try_body. rewrite Hk. cbv zeta.
    destruct (upstream (env 0%nat) (select_model 0 (models (env 0%nat))) k message)
      as [a | s |] eqn:Hu; simpl in Hp; try discriminate.
    rewrite Hp. intros [= <- <-]. by exists []. }
  destruct Hshape as [post Heq].
  destruct (Hptl _ _ _ _ _ Heq Hp) as (_ & Hr & Hn). split; [done|].
  rewrite Hn. reflexivity.
Qed.

(* ===================================================================== *)
(** * Token estimate *)
(* ===================================================================== *)

(** C8, as stated, fails.  For a prompt of 11 characters and an answer of 7
    the coordinator returns the estimate 3, while [(11 + 7) / 4] is 4. *)
Lemma estimate_below_quarter_of_sum :
  let r := process_prompt_direct ["k1"] "Make slides"
             (Scenario.always (UText "Slide 1")) in
  r.1 = DReturn "Slide 1" 3 /\
  (len "Make slides" + len "Slide 1") / 4 = 4.
Proof. vm_compute. split; reflexivity. Qed.

(** C8, amended.  When the coordinator returns, the answer is the text of the
    last upstream call and the estimate is [len(message) // 4 + len(answer)
    // 4]: each length is quartered on its own and rounded down, which is
    the floor of the quarter of the sum or one less. *)
Theorem token_estimate (keys : list string) (message : string)
    (env : nat -> attempt_env) :
  match process_prompt_direct keys message env with
  | (DReturn answer n_used_tokens, effs) =>
      (exists pre m k, effs = pre ++ [ECall m k (UText answer)]) /\
      n_used_tokens = len message / 4 + len answer / 4 /\
      (len message + len answer) / 4 - 1 <= n_used_tokens
        <= (len message + len answer) / 4
  | _ => True
  end.
Proof.
  destruct (process_prompt_direct keys message env) as [[a n | |] effs] eqn:Hrun;
    [|done..].
  apply direct_loop_return in Hrun as [Hlast ->].
  split; [done|]. split; [done|]. apply floor_quarters.
Qed.

(* ===================================================================== *)
(** * The scan of the environment for keys *)
(* ===================================================================== *)

Section KeyScan.

Lemma to_int_not_nil z :
  Z.to_int z <> Decimal.Pos Decimal.Nil /\ Z.to_int z <> Decimal.Neg Decimal.Nil.
Proof.
  destruct z; simpl; split; try discriminate.
  all: intros [= H]; revert H; apply DecimalPos.Unsigned.to_uint_nonnil.
Qed.

(** [str] is injective on integers. *)
Lemma str_int_inj a b : str_int a = str_int b -> a = b.
Proof.
  unfold str_int. intros H.
  apply (f_equal NilZero.int_of_string) in H.
  destruct (to_int_not_nil a), (to_int_not_nil b).
  rewrite !NilZero.isi in H by done.
  injection H as H. apply (f_equal Z.of_int) in H. by rewrite !DecimalZ.of_to in H.
Qed.


Lemma key_name_inj a b :
  "GEMINI_API_KEY_" +:+ str_int a = "GEMINI_API_KEY_" +:+ str_int b -> a = b.
Proof. intros H. simpl in H. injection H as H. by apply str_int_inj. Qed.

Lemma truthy_Some (v : option string) : truthy v = true -> is_Some v.
Proof. destruct v; [eauto | discriminate]. Qed.

Lemma additional_keys_delete fuel (environ : gmap string string) : forall i j,
  j < i ->
  additional_keys fuel (delete ("GEMINI_API_KEY_" +:+ str_int j) environ) i
  = additional_keys fuel environ i.
Proof.
  induction fuel as [|fuel IH]; intros i j Hlt; [done|].
  cbn [additional_keys].
  rewrite lookup_delete_ne by (intros H%key_name_inj; lia).
  destruct (truthy _); [|done]. f_equal. apply IH. lia.
Qed.

Lemma additional_keys_length fuel : forall (environ : gmap string string) i,
  (length (additional_keys fuel environ i) <= size environ)%nat.
Proof.
  induction fuel as [|fuel IH]; intros environ i; cbn [additional_keys];
    [simpl; lia|].
  destruct (truthy (environ !! _)) eqn:Ht; [|simpl; lia].
  apply truthy_Some in Ht as Hk.
  rewrite <- (additional_keys_delete fuel environ (i + 1) i) by lia.
  specialize (IH (delete ("GEMINI_API_KEY_" +:+ str_int i) environ) (i + 1)).
  rewrite (map_size_delete_Some _ _ Hk) in IH.
  pose proof (map_size_ne_0_lookup_2 environ _ Hk). simpl. lia.
Qed.

Lemma additional_keys_more fuel : forall (environ : gmap string string) i,
  (length (additional_keys fuel environ i) < fuel)%nat ->
  additional_keys (S fuel) environ i = additional_keys fuel environ i.
Proof.
  induction fuel as [|fuel IH]; intros environ i Hlen; [simpl in Hlen; lia|].
  cbn [additional_keys] in *.
  destruct (truthy (environ !! _)); [|done].
  f_equal. apply IH. simpl in Hlen. lia.
Qed.

Lemma additional_keys_enough extra (environ : gmap string string) i :
  additional_keys (S (size environ) + extra) environ i
  = additional_keys (S (size environ)) environ i.
Proof.
  induction extra as [|extra IH]; [by rewrite Nat.add_0_r|].
  rewrite Nat.add_succ_r, additional_keys_more; [done|].
  rewrite IH. pose proof (additional_keys_length (S (size environ)) environ i). lia.
Qed.

End KeyScan.

(* ===================================================================== *)
(** * An empty credential pool *)
(* ===================================================================== *)

Lemma load_api_keys_empty (environ : gmap string string) :
  load_api_keys environ = [] -> truthy (environ !! "GEMINI_API_KEY") = false.
Proof.
  unfold load_api_keys. by destruct (truthy (environ !! "GEMINI_API_KEY")).
Qed.

Lemma load_api_keys_empty_iff (environ : gmap string string) :
  load_api_keys environ = [] <->
  truthy (environ !! "GEMINI_API_KEY") = false /\
  truthy (environ !! "GEMINI_API_KEY_1") = false.
Proof.
  unfold load_api_keys. cbn [additional_keys].
  change ("GEMINI_API_KEY_" +:+ str_int 1) with "GEMINI_API_KEY_1".
  destruct (truthy (environ !! "GEMINI_API_KEY")),
    (truthy (environ !! "GEMINI_API_KEY_1")); simpl; split;
    try done; intros []; done.
Qed.

(** C5.  With an empty credential pool the program refuses to start.  The
    pool is empty only when [GEMINI_API_KEY] is unset or empty; [main] of
    [run.py] then logs the missing variable and returns 1 before it imports
    the bot, so [run_bot] is never called: the queue and its worker never
    come to be, and no request is submitted or processed, whatever might have
    gone on inside the bot. *)
Theorem empty_pool_refuses_to_start (environ : gmap string string)
    (bot : bot_run) (evs : list event) :
  load_api_keys environ = [] ->
  truthy (environ !! "GEMINI_API_KEY") = false /\
  main environ bot = (Returns 1, false) /\
  program environ bot evs = (Returns 1, None).
Proof.
  intros Hk. apply load_api_keys_empty in Hk.
  assert (Hm : main environ bot = (Returns 1, false)).
  { unfold main. cbn [List.filter]. rewrite Hk. cbn [negb].
    by destruct (negb (truthy (environ !! "TELEGRAM_TOKEN"))). }
  split; [done|]. split; [done|].
  unfold program. by rewrite Hm.
Qed.

Lemma empty_pool_refuses_to_start_witness :
  program {[ "TELEGRAM_TOKEN" := "12345:token" ]} BotReturns
    Scenario.served_at_once
  = (Returns 1, None).
Proof.
  apply (empty_pool_refuses_to_start {[ "TELEGRAM_TOKEN" := "12345:token" ]}
           BotReturns Scenario.served_at_once).
  vm_compute. reflexivity.
Defined.

(* ===================================================================== *)
(** * The two timeouts *)
(* ===================================================================== *)


(** The only [TimeoutError] the coordinator's classification yields. *)
Lemma classify_final_timeout (str_e : string) :
  exn_type (classify_final str_e) = TimeoutError ->
  classify_final str_e = upstream_timeout_error.
Proof.
  unfold classify_final.
  destruct (contains "overloaded" (lower str_e)
            || contains "rate limit" (lower str_e)
            || contains "quota" (lower str_e)); [discriminate|].
  destruct (contains "timeout" (lower str_e)
            || contains "deadline" (lower str_e)); [done | discriminate].
Qed.

(* ===================================================================== *)
(** * One worker, one request at a time *)
(* ===================================================================== *)

(** C10, as stated, fails.  Two requests are admitted in this order; the
    worker is busy with the first when the caller of the second gives up
    after its one-second wait.  The second request is in a terminal state,
    [Timeout], while the first is still [Queued]. *)
Lemma later_request_times_out_first :
  let r := exec (initial_state ["k1"]) Scenario.second_times_out_first in
  added_ids r.2 = ["req_1700000000_1111"; "req_1700000000_2222"] /\
  in_flight (workers r.1) = ["req_1700000000_1111"] /\
  status <$> request_results r.1 !! "req_1700000000_1111" = Some Queued /\
  status <$> request_results r.1 !! "req_1700000000_2222" = Some Timeout.
Proof. vm_compute. repeat split; reflexivity. Qed.

(** C10, amended.  Whatever the schedule of calls, wake-ups, worker steps and
    sweeps, [process_prompt] starts at most one worker, at most one request
    taken from the queue is without its worker-written record, and the worker
    writes its [Completed] and [Error] records in the order of admission: the
    admitted identifiers are those stored, then the one in flight, then those
    still queued.  After storing a record the worker is at its pause, and
    only from there goes back to the queue.  (A [Timeout] mark is written by
    the waiting caller, at its own deadline.) *)
Theorem queue_worker_serial (keys : list string) (evs : list event) :
  let '(st, outs) := exec (initial_state keys) evs in
  (List.length (workers st) <= 1)%nat /\
  (List.length (in_flight (workers st)) <= 1)%nat /\
  processing_ids outs = stored_ids outs ++ in_flight (workers st) /\
  added_ids outs
  = stored_ids outs ++ in_flight (workers st) ++ (req_id <$> request_queue st) /\
  (forall i e request_id message priority,
     workers st !! i = Some (WProcessing request_id message priority) ->
     workers (queue_worker st i e).1 !! i = Some WPause /\
     request_queue (queue_worker st i e).1 = request_queue st) /\
  (forall i e, workers st !! i = Some WPause ->
               queue_worker st i e = (set_worker i WGet st, [])).
Proof.
  pose proof (exec_inv evs (initial_state keys) [] (initial_inv keys)) as H.
  destruct (exec (initial_state keys) evs) as [st outs]; simpl in H.
  destruct H as (I1 & _ & _ & _ & I5 & I6).
  split; [done|]. split.
  { destruct (workers st) as [|pc [|pc' ws]]; simpl in *; [lia | | lia].
    destruct pc; simpl; lia. }
  split; [done|]. split; [done|]. split.
  - intros i e rid msg prio Hi. unfold queue_worker. rewrite Hi.
    destruct (process_prompt_direct (api_keys st) msg (attempts e)) as [r effs].
    simpl. split; [|done].
    apply list_lookup_insert_eq. by eapply lookup_lt_Some.
  - intros i e Hi. unfold queue_worker. by rewrite Hi.
Qed.

(** An invocation that runs alone goes through the limiter as
    [process_prompt_direct] describes, and gives its permit back. *)
Lemma lone_invocation (keys : list string) (message : string)
    (env : nat -> attempt_env) (e0 : attempt_env) :
  Limiter.run keys (Limiter.init keys [message])
    [(0, e0); (0, env 0); (0, env 1); (0, env 2)]%nat
  = Limiter.mkLState (MAX_CONCURRENT_REQUESTS keys)
      [Limiter.TDone (process_prompt_direct keys message env).1].
Proof.
  pose proof (LimiterFacts.max_concurrent_pos keys) as Hpos.
  apply Z.ltb_lt in Hpos as Hpos'.
  unfold process_prompt_direct, MAX_RETRIES. cbn [direct_loop].
  unfold Limiter.init. cbn [Limiter.run fmap list_fmap].
  unfold Limiter.step at 4. cbn [Limiter.tasks Limiter.sem_value lookup list_lookup].
  rewrite Hpos'. cbn [insert list_insert].
  unfold Limiter.step at 3. cbn [Limiter.tasks Limiter.sem_value lookup list_lookup].
  change (0 <? MAX_RETRIES)%nat with true. change (0 <? 3)%nat with true. cbv iota.
  pose proof (loop_iteration_effects keys message 0 (env 0%nat)) as H0.
  destruct (loop_iteration keys message 0 (env 0%nat)) as [[a n | err | rc] effs0];
    cbn [fst insert list_insert];
    [unfold Limiter.step; cbn; f_equal; lia.. |].
  destruct H0 as (_ & _ & _ & H0). destruct (H0 rc eq_refl) as (-> & _ & _).
  unfold Limiter.step at 2. cbn [Limiter.tasks Limiter.sem_value lookup list_lookup].
  change (1 <? MAX_RETRIES)%nat with true. change (1 <? 3)%nat with true. cbv iota.
  pose proof (loop_iteration_effects keys message 1 (env 1%nat)) as H1.
  destruct (loop_iteration keys message 1 (env 1%nat)) as [[a n | err | rc] effs1];
    cbn [fst insert list_insert];
    [unfold Limiter.step; cbn; f_equal; lia.. |].
  destruct H1 as (_ & _ & _ & H1). destruct (H1 rc eq_refl) as (-> & _ & _).
  unfold Limiter.step. cbn [Limiter.tasks Limiter.sem_value lookup list_lookup].
  change (2 <? MAX_RETRIES)%nat with true. change (2 <? 3)%nat with true. cbv iota.
  pose proof (loop_iteration_effects keys message 2 (env 2%nat)) as H2.
  destruct (loop_iteration keys message 2 (env 2%nat)) as [[a n | err | rc] effs2];
    cbn [fst insert list_insert]; [f_equal; lia.. |].
  destruct H2 as (_ & _ & _ & H2). destruct (H2 rc eq_refl) as (_ & Hlt & _).
  unfold MAX_RETRIES in Hlt. lia.
Qed.

(* ===================================================================== *)
(** * The coordinator with a key at hand: retries, delays, models *)
(* ===================================================================== *)

Section Retries.

Variable keys : list string.
Variable message : string.
Hypothesis pool : keys <> [].

Lemma pick_key_ok d : get_random_api_key keys d = inr (pick_key keys d).
Proof.
  unfold pick_key, get_random_api_key. by destruct keys.
Qed.

Lemma pick_key_in d : pick_key keys d ∈ keys.
Proof.
  unfold pick_key, get_random_api_key. destruct keys as [|k ks] eqn:Hk; [done|].
  apply list_elem_of_In, nth_In, Nat.mod_upper_bound. simpl. lia.
Qed.

(** One pass of the loop, spelled out for a non-empty pool. *)
Lemma loop_iteration_with_key rc e :
  let m := select_model rc (models e) in
  let k := pick_key keys (key_draw e) in
  let r := upstream e m k message in
  let effs0 := (if (rc =? 0)%nat then [EListModels] else []) ++ [ECall m k r] in
  loop_iteration keys message rc e =
  match r with
  | UText a => (IReturn a (len message / 4 + len a / 4), effs0)
  | _ =>
      if retryable r then
        if (S rc <? MAX_RETRIES)%nat then
          (IContinue (S rc),
           effs0 ++ [ESleep (BASE_DELAY * 2 ^ (Z.of_nat (S rc) - 1))])
        else (IRaise (classify_final (default "" (failure_text r))), effs0)
      else (IRaise too_many_tokens_error, effs0)
  end.
Proof.
  cbv zeta. unfold loop_iteration, try_body, retryable.
  rewrite pick_key_ok. cbv zeta.
  destruct (upstream e (select_model rc (models e)) (pick_key keys (key_draw e))
              message) as [a | s |]; cbn [failure_text default].
  - reflexivity.
  - destruct (contains "too many tokens" (lower s)); cbn [negb]; [reflexivity|].
    destruct (S rc <? MAX_RETRIES)%nat; [|reflexivity].
    by rewrite pick_key_ok.
  - rewrite timeout_text_not_ptl. cbn [negb].
    destruct (S rc <? MAX_RETRIES)%nat; [|reflexivity].
    by rewrite pick_key_ok.
Qed.

End Retries.

Section LogShape.

Variable keys : list string.
Variable message : string.
Variable env : nat -> attempt_env.
Hypothesis pool : keys <> [].

Let k (i : nat) : string := pick_key keys (key_draw (env i)).
Let m0 : string := select_model 0 (models (env 0%nat)).
Let full_log : list effect :=
  [EListModels; ECall m0 (k 0%nat) (upstream (env 0%nat) m0 (k 0%nat) message);
   ESleep 2;
   ECall "models/gemini-pro" (k 1%nat)
     (upstream (env 1%nat) "models/gemini-pro" (k 1%nat) message);
   ESleep 4;
   ECall "models/gemini-pro" (k 2%nat)
     (upstream (env 2%nat) "models/gemini-pro" (k 2%nat) message)].

Ltac one_pass :=
  rewrite (loop_iteration_with_key keys message pool); cbv zeta;
  try change (select_model 1 (models (env 1%nat))) with "models/gemini-pro";
  try change (select_model 2 (models (env 2%nat))) with "models/gemini-pro";
  try change (1 <? MAX_RETRIES)%nat with true;
  try change (2 <? MAX_RETRIES)%nat with true;
  try change (3 <? MAX_RETRIES)%nat with false;
  match goal with
  | |- context [retryable ?r] =>
      let R := fresh "R" in
      destruct (retryable r) eqn:R;
      cbv beta iota; cbn [Nat.sub Nat.eqb];
      destruct r; try discriminate R; cbv beta iota
  end.

Let r (i : nat) : upstream_result :=
  upstream (env i) (if (i =? 0)%nat then m0 else "models/gemini-pro") (k i) message.

Lemma run_closed_form :
  process_prompt_direct keys message env
  = (outcome_of message (r (attempts_made (r 0%nat) (r 1%nat) - 1)),
     take (2 * attempts_made (r 0%nat) (r 1%nat)) full_log).
Proof.
  subst r full_log m0 k. cbv beta. unfold process_prompt_direct, attempts_made.
  change MAX_RETRIES with 3%nat at 1. cbn [direct_loop Nat.eqb].
  change (0 <? MAX_RETRIES)%nat with true. cbv iota.
  one_pass; [| |
    unfold outcome_of; rewrite ?R; reflexivity..].
  all: one_pass; [| |
    unfold outcome_of; cbn [Nat.sub Nat.eqb]; rewrite ?R0; reflexivity..].
  all: one_pass; unfold outcome_of; cbn [Nat.sub Nat.eqb]; rewrite ?R1;
    reflexivity.
Qed.

End LogShape.

(** X1. With a key at hand, three attempts in a row that fail with anything
    but "too many tokens" use up the retries: the coordinator lists the models
    once, calls the chosen model, sleeps on base 2, calls [models/gemini-pro],
    sleeps on base 4, calls [models/gemini-pro] again and then raises the
    error that the text of the third failure, alone, is classified as. *)
Theorem retries_exhausted (keys : list string) (message : string)
    (env : nat -> attempt_env) :
  let k := fun i => pick_key keys (key_draw (env i)) in
  let m0 := select_model 0 (models (env 0%nat)) in
  let r0 := upstream (env 0%nat) m0 (k 0%nat) message in
  let r1 := upstream (env 1%nat) "models/gemini-pro" (k 1%nat) message in
  let r2 := upstream (env 2%nat) "models/gemini-pro" (k 2%nat) message in
  keys <> [] ->
  retryable r0 = true -> retryable r1 = true -> retryable r2 = true ->
  process_prompt_direct keys message env
  = (DRaise (classify_final (default "" (failure_text r2))),
     [EListModels; ECall m0 (k 0%nat) r0; ESleep 2;
      ECall "models/gemini-pro" (k 1%nat) r1; ESleep 4;
      ECall "models/gemini-pro" (k 2%nat) r2]).
Proof.
  cbv zeta. intros pool H0 H1 H2.
  rewrite (run_closed_form keys message env pool).
  unfold attempts_made. cbn [Nat.eqb]. rewrite H0, H1.
  cbn [Nat.sub Nat.eqb Nat.mul Nat.add take].
  unfold outcome_of. rewrite H2.
  by destruct (upstream (env 2%nat) _ _ message).
Qed.

Lemma retries_exhausted_witness :
  process_prompt_direct ["k1"] "Make slides"
    (Scenario.always (URaise "503 Service Unavailable"))
  = (DRaise (Exn RuntimeError
       "Error with Gemini API after 3 attempts: 503 Service Unavailable"),
     [EListModels;
      ECall "models/gemini-1.5-flash" "k1" (URaise "503 Service Unavailable");
      ESleep 2;
      ECall "models/gemini-pro" "k1" (URaise "503 Service Unavailable");
      ESleep 4;
      ECall "models/gemini-pro" "k1" (URaise "503 Service Unavailable")]).
Proof.
  apply (retries_exhausted ["k1"] "Make slides"
           (Scenario.always (URaise "503 Service Unavailable")));
    [discriminate | reflexivity..].
Defined.

(* ===================================================================== *)
(** * The two timeouts, from the upstream call to the caller *)
(* ===================================================================== *)







(** X3. With a key at hand, a run of the coordinator is a prefix of one fixed
    sequence of effects: list the models, call the selected model, sleep on
    base 2, call [models/gemini-pro], sleep on base 4, call
    [models/gemini-pro].  It stops right after the first attempt that is not
    a retryable failure (a success, or "too many tokens"), or after the third,
    and ends as that attempt decides; every call uses a key of the pool. *)
Theorem process_prompt_direct_closed_form (keys : list string) (message : string)
    (env : nat -> attempt_env) :
  let k := fun i => pick_key keys (key_draw (env i)) in
  let m0 := select_model 0 (models (env 0%nat)) in
  let r := fun i : nat =>
    upstream (env i) (if (i =? 0)%nat then m0 else "models/gemini-pro") (k i)
      message in
  let n := attempts_made (r 0%nat) (r 1%nat) in
  let run := process_prompt_direct keys message env in
  keys <> [] ->
  run = (outcome_of message (r (n - 1)%nat),
         take (2 * n)
           [EListModels; ECall m0 (k 0%nat) (r 0%nat); ESleep 2;
            ECall "models/gemini-pro" (k 1%nat) (r 1%nat); ESleep 4;
            ECall "models/gemini-pro" (k 2%nat) (r 2%nat)]) /\
  (1 <= n <= 3)%nat /\
  upstream_calls run.2 = n /\
  Forall (fun key => key ∈ keys) (call_keys run.2).
Proof.
  cbv zeta. intros pool.
  rewrite (run_closed_form keys message env pool). cbn [fst snd].
  split; [reflexivity|].
  pose proof (pick_key_in keys pool) as Hin.
  unfold attempts_made.
  destruct (retryable _); [destruct (retryable _)|];
    (split; [lia|]); (split; [reflexivity|]);
    cbn; repeat constructor; apply Hin.
Qed.

Lemma closed_form_witness :
  process_prompt_direct ["k1"] "Make slides" (Scenario.always (UText "Slide 1"))
  = (DReturn "Slide 1" 3,
     [EListModels; ECall "models/gemini-1.5-flash" "k1" (UText "Slide 1")]).
Proof.
  apply (process_prompt_direct_closed_form ["k1"] "Make slides"
           (Scenario.always (UText "Slide 1"))).
  discriminate.
Defined.


(* ===================================================================== *)
(** * The choice of the model *)
(* ===================================================================== *)

Lemma find_preferred_Some prefs ms name :
  find_preferred prefs ms = Some name ->
  exists before p after,
    prefs = before ++ p :: after /\
    List.find (contains p) ms = Some name /\
    (forall q m, q ∈ before -> m ∈ ms -> contains q m = false).
Proof.
  induction prefs as [|p prefs IH]; [discriminate|]. cbn [find_preferred].
  destruct (List.find (contains p) ms) as [m0|] eqn:Hf.
  - intros [= ->]. exists [], p, prefs. repeat split; [done|].
    intros q m Hq. by apply elem_of_nil in Hq.
  - intros (before & p' & after & -> & Hfind & Hnone)%IH.
    exists (p :: before), p', after. repeat split; [done|].
    intros q m [-> | Hq]%elem_of_cons Hm; [|by eapply Hnone].
    apply (find_none _ _ Hf). by apply list_elem_of_In.
Qed.

Lemma find_preferred_None prefs ms :
  find_preferred prefs ms = None ->
  forall q m, q ∈ prefs -> m ∈ ms -> contains q m = false.
Proof.
  induction prefs as [|p prefs IH]; cbn [find_preferred].
  - intros _ q m Hq. by apply elem_of_nil in Hq.
  - destruct (List.find (contains p) ms) as [m0|] eqn:Hf; [discriminate|].
    intros Hnone q m [-> | Hq]%elem_of_cons Hm; [|by eapply IH].
    apply (find_none _ _ Hf). by apply list_elem_of_In.
Qed.

(** X5. The model of the first attempt.  [list_available_models] loops over
    the listing for the log before the search loops over it again.  When the
    listing can be iterated once only, as a generator, or listing raises, the
    search finds nothing and the model is [models/gemini-1.5-flash], whatever
    is listed.  When the listing is a list, the model is the first listed
    model whose name contains the most preferred of the preferred names that
    any listed model contains, or [models/gemini-1.5-flash] when no listed
    model contains a preferred name.  A retry always uses
    [models/gemini-pro]. *)
Theorem select_model_preference (l : listing) :
  match l with
  | ListRaises | ListOnce _ => select_model 0 l = "models/gemini-1.5-flash"
  | ListAgain ms =>
      (exists before p after ms1 ms2,
         preferred_models = before ++ p :: after /\
         ms = ms1 ++ select_model 0 l :: ms2 /\
         contains p (select_model 0 l) = true /\
         (forall m, m ∈ ms1 -> contains p m = false) /\
         (forall q m, q ∈ before -> m ∈ ms -> contains q m = false))
      \/
      (select_model 0 l = "models/gemini-1.5-flash" /\
       forall q m, q ∈ preferred_models -> m ∈ ms -> contains q m = false)
  end /\
  (forall retry_count, retry_count <> 0%nat ->
                       select_model retry_count l = "models/gemini-pro").
Proof.
  split.
  - destruct l as [| names | ms]; [reflexivity..|].
    unfold select_model. cbn [Nat.eqb list_available_models].
    destruct (find_preferred preferred_models ms) as [name|] eqn:Hf.
    + left. apply find_preferred_Some in Hf as (before & p & after & Hp & Hfind & Hn).
      exists before, p, after.
      assert (Hsplit : exists ms1 ms2, ms = ms1 ++ name :: ms2 /\
                         forall m, m ∈ ms1 -> contains p m = false).
      { clear Hn Hp. revert Hfind. induction ms as [|m ms IH]; [discriminate|].
        cbn [List.find]. destruct (contains p m) eqn:Hc.
        - intros [= ->]. exists [], ms. split; [done|].
          intros m' Hm'. by apply elem_of_nil in Hm'.
        - intros (ms1 & ms2 & -> & H1)%IH. exists (m :: ms1), ms2. split; [done|].
          intros m' [-> | Hm']%elem_of_cons; auto. }
      destruct Hsplit as (ms1 & ms2 & Hms & H1). exists ms1, ms2.
      repeat split; auto. by apply find_some in Hfind as [_ ?].
    + right. split; [done|]. by apply find_preferred_None.
  - intros [|rc] Hrc; [done | reflexivity].
Qed.

(* ===================================================================== *)
(** * The keys loaded from the environment *)
(* ===================================================================== *)

Lemma truthy_nonempty (v : option string) :
  truthy v = true -> default "" v <> "" /\ v = Some (default "" v).
Proof.
  destruct v as [s|]; [|discriminate]. simpl.
  destruct (String.eqb_spec s ""); [discriminate | done].
Qed.

Lemma additional_keys_upto fuel (environ : gmap string string) : forall i n,
  i <= n ->
  (forall j, i <= j < n ->
             truthy (environ !! ("GEMINI_API_KEY_" +:+ str_int j)) = true) ->
  truthy (environ !! ("GEMINI_API_KEY_" +:+ str_int n)) = false ->
  (Z.to_nat (n - i) < fuel)%nat ->
  additional_keys fuel environ i
  = (fun j => default "" (environ !! ("GEMINI_API_KEY_" +:+ str_int j)))
      <$> seqZ i (n - i).
Proof.
  induction fuel as [|fuel IH]; intros i n Hin Hset Hgap Hfuel; [lia|].
  cbn [additional_keys].
  destruct (decide (i = n)) as [-> | Hne].
  - rewrite Hgap, Z.sub_diag. reflexivity.
  - rewrite (Hset i) by lia.
    rewrite (IH (i + 1) n); [| lia | intros; apply Hset; lia | done | lia].
    replace (n - i) with (Z.succ (n - (i + 1))) by lia.
    rewrite (seqZ_cons i) by lia. cbn [fmap list_fmap]. f_equal.
    by rewrite Z.pred_succ.
Qed.

(** X6. The credential pool is [GEMINI_API_KEY], when set and not empty,
    followed by [GEMINI_API_KEY_1], [GEMINI_API_KEY_2], ... in order up to the
    first of them that is unset or empty: numbered variables after that gap
    are ignored. *)
Theorem load_api_keys_up_to_gap (environ : gmap string string) (n : Z) :
  1 <= n ->
  (forall j, 1 <= j < n ->
             truthy (environ !! ("GEMINI_API_KEY_" +:+ str_int j)) = true) ->
  truthy (environ !! ("GEMINI_API_KEY_" +:+ str_int n)) = false ->
  load_api_keys environ
  = (if truthy (environ !! "GEMINI_API_KEY")
     then [default "" (environ !! "GEMINI_API_KEY")] else [])
    ++ ((fun j => default "" (environ !! ("GEMINI_API_KEY_" +:+ str_int j)))
          <$> seqZ 1 (n - 1)).
Proof.
  intros Hn Hset Hgap. unfold load_api_keys. f_equal.
  rewrite <- (additional_keys_enough (Z.to_nat (n - 1)) environ 1).
  apply additional_keys_upto; auto. lia.
Qed.

Lemma load_api_keys_up_to_gap_witness :
  load_api_keys
    (<["GEMINI_API_KEY" := "key-a"]>
       (<["GEMINI_API_KEY_1" := "key-b"]> (<["GEMINI_API_KEY_3" := "key-c"]> ∅)))
  = ["key-a"; "key-b"].
Proof.
  etrans.
  - apply (load_api_keys_up_to_gap
             (<["GEMINI_API_KEY" := "key-a"]>
                (<["GEMINI_API_KEY_1" := "key-b"]>
                   (<["GEMINI_API_KEY_3" := "key-c"]> ∅))) 2).
    + lia.
    + intros j Hj. assert (j = 1) as -> by lia. reflexivity.
    + reflexivity.
  - vm_compute. reflexivity.
Defined.

(** X7. Every key of the pool is a non-empty value of the environment. *)
Theorem loaded_keys_are_set (environ : gmap string string) :
  Forall (fun key => key <> "" /\ exists name, environ !! name = Some key)
    (load_api_keys environ).
Proof.
  unfold load_api_keys. apply Forall_app. split.
  - destruct (truthy (environ !! "GEMINI_API_KEY")) eqn:Ht; [|constructor].
    apply truthy_nonempty in Ht as [Hne Hv]. repeat constructor; eauto.
  - generalize (S (size environ)) as fuel. generalize 1 as i.
    intros i fuel. revert i.
    induction fuel as [|fuel IH]; intros i; cbn [additional_keys]; [constructor|].
    destruct (truthy (environ !! _)) eqn:Ht; [|constructor].
    apply truthy_nonempty in Ht as [Hne Hv]. constructor; eauto.
Qed.

(* ===================================================================== *)
(** * Delivery through the result store *)
(* ===================================================================== *)

(** X8. What the worker stored is what the waiting caller gets.  When a pass
    of the wait loop before the deadline finds the record the worker wrote, the
    caller receives the very result tuple, or an exception of the same class
    and message as the coordinator raised, and the record is deleted.  A pass
    after the deadline does not look at the record: the caller gets the
    wait-timeout error and the finished record is kept, marked [Timeout]. *)
Theorem worker_outcome_delivered (st : State) (w : waiter) (clock now : Z)
    (r : direct_result) :
  let stored := worker_record r now in
  let st1 := set_results (insert (w_request_id w) stored) st in
  let '(st2, outs) := wait_check st1 w clock in
  if clock - w_start_time w <? w_timeout w * 1000000 then
    outs = [delivered r] /\
    request_results st2 = delete (w_request_id w) (request_results st)
  else
    outs = [LogTimedOut (w_request_id w);
            Raised (wait_timeout_error (w_timeout w))] /\
    request_results st2 !! w_request_id w
    = Some (mkRecord Timeout (queued_at stored) (result stored) (error stored)
              (error_type stored) (completed_at stored)).
Proof.
  cbv zeta. unfold wait_check.
  destruct (clock - w_start_time w <? w_timeout w * 1000000);
    cbn [set_results request_results]; rewrite lookup_insert_eq.
  - destruct r as [a n | [[] msg] |]; cbn -[insert delete];
      (split; [done | apply delete_insert_eq]).
  - cbn [set_results request_results]. split; [done|]. apply lookup_insert_eq.
Qed.

(** X9. The wait loop and the store.  A pass of the wait loop touches no
    record but the caller's own; it never creates one.  A pass that suspends
    changes nothing; a pass that delivers removes the record, so that
    [check_request_status] then answers not-found; a pass past the deadline
    marks the record [Timeout] if it is still there and leaves the store
    alone if it is not. *)
Theorem wait_loop_and_store (st : State) (w : waiter) (clock : Z) :
  let '(st', outs) := wait_check st w clock in
  (forall request_id, request_id <> w_request_id w ->
     check_request_status st' request_id = check_request_status st request_id) /\
  match outs with
  | [Suspended] => st' = st
  | [ReturnedResult _] | [Raised _] =>
      check_request_status st' (w_request_id w) = NotFound
  | _ =>
      check_request_status st' (w_request_id w)
      = match check_request_status st (w_request_id w) with
        | Found data =>
            Found (mkRecord Timeout (queued_at data) (result data) (error data)
                     (error_type data) (completed_at data))
        | NotFound => NotFound
        end
  end.
Proof.
  unfold wait_check, check_request_status.
  destruct (clock - w_start_time w <? w_timeout w * 1000000).
  - destruct (request_results st !! w_request_id w) as [d|] eqn:Hd.
    + destruct (status d); cbn [set_results request_results];
        try (split; [done | by rewrite ?Hd]);
        (split; [intros id Hid; by rewrite lookup_delete_ne
                | by rewrite lookup_delete_eq]).
    + split; [done|]. done.
  - destruct (request_results st !! w_request_id w) as [d|] eqn:Hd;
      cbn [set_results request_results].
    + split; [intros id Hid; by rewrite lookup_insert_ne|].
      by rewrite lookup_insert_eq.
    + split; [done|]. by rewrite Hd.
Qed.

(* ===================================================================== *)
(** * The reaper *)
(* ===================================================================== *)

Lemma cleanup_lookup (st : State) (now : Z) (request_id : string) :
  request_results (cleanup_old_results st now) !! request_id
  = match request_results st !! request_id with
    | Some data => if stale now data then None else Some data
    | None => None
    end.
Proof.
  cbn [cleanup_old_results set_results request_results].
  destruct (request_results st !! request_id) as [d|] eqn:Hd.
  - destruct (stale now d) eqn:Hs.
    + apply map_lookup_filter_None. right. intros x Hx. simpl. congruence.
    + by apply map_lookup_filter_Some.
  - apply map_lookup_filter_None. by left.
Qed.

Lemma stale_mono (now now' : Z) (data : ResultRecord) :
  now <= now' -> stale now data = true -> stale now' data = true.
Proof.
  unfold stale. intros Hle.
  destruct (completed_at data); [|destruct (queued_at data)]; try done;
    rewrite !Z.ltb_lt; lia.
Qed.

(** X10. How long a record is kept.  A sweep leaves the queue, its counter and
    the workers alone.  It keeps a record the worker wrote as long as no more
    than 3600 seconds have passed since [completed_at], and removes it after;
    it keeps a record still [Queued] as long as no more than 7200 seconds have
    passed since [queued_at]; and a record the wait loop marked [Timeout]
    keeps its [queued_at], so it goes 7200 seconds after the request was
    queued, however late the timeout came. *)
Theorem record_retention (st : State) (request_id : string) (now t : Z)
    (r : direct_result) :
  let stored := set_results (insert request_id (worker_record r t)) st in
  let queued := set_results (insert request_id (queued_record t)) st in
  let marked :=
    set_results
      (insert request_id (mkRecord Timeout (Some t) None None None None)) st in
  check_request_status (cleanup_old_results stored now) request_id
  = (if 3600 * 1000000 <? now - t then NotFound else Found (worker_record r t)) /\
  check_request_status (cleanup_old_results queued now) request_id
  = (if 7200 * 1000000 <? now - t then NotFound else Found (queued_record t)) /\
  check_request_status (cleanup_old_results marked now) request_id
  = (if 7200 * 1000000 <? now - t then NotFound
     else Found (mkRecord Timeout (Some t) None None None None)) /\
  request_queue (cleanup_old_results st now) = request_queue st /\
  current_queue_size (cleanup_old_results st now) = current_queue_size st /\
  workers (cleanup_old_results st now) = workers st.
Proof.
  cbv zeta. unfold check_request_status. rewrite !cleanup_lookup.
  cbn [set_results request_results]. rewrite !lookup_insert_eq.
  repeat split.
  - destruct r; cbn; by destruct (_ <? _).
  - cbn; by destruct (_ <? _).
  - cbn; by destruct (_ <? _).
Qed.

(** X11. Sweeps compose.  A sweep removes records only and changes none; a
    sweep followed by a later one leaves what the later one alone would
    leave, so sweeping twice at the same instant is sweeping once. *)
Theorem sweeps_compose (st : State) (now now' : Z) :
  now <= now' ->
  cleanup_old_results (cleanup_old_results st now) now'
  = cleanup_old_results st now' /\
  request_results (cleanup_old_results st now) ⊆ request_results st.
Proof.
  intros Hle. split.
  - unfold cleanup_old_results, set_results. cbn [api_keys current_queue_size
      request_queue request_results queue_worker_running queue_worker_task
      workers waiters]. f_equal.
    rewrite map_filter_filter. apply map_filter_ext.
    intros i d _. simpl. split; [tauto|]. intros Hs. split; [done|].
    destruct (stale now d) eqn:Hn; [|done].
    rewrite (stale_mono _ _ _ Hle Hn) in Hs. done.
  - apply map_filter_subseteq.
Qed.

Lemma sweeps_compose_witness :
  let st := set_results
              (insert "req_1700000000_1234"
                 (worker_record (DReturn "Slide 1" 3) 1700000000400000))
              (initial_state ["k1"]) in
  cleanup_old_results (cleanup_old_results st 1700003000000000) 1700004000400001
  = cleanup_old_results st 1700004000400001 /\
  request_results (cleanup_old_results st 1700003000000000) ⊆ request_results st.
Proof.
  exact (sweeps_compose
           (set_results
              (insert "req_1700000000_1234"
                 (worker_record (DReturn "Slide 1" 3) 1700000000400000))
              (initial_state ["k1"]))
           1700003000000000 1700004000400001 ltac:(lia)).
Defined.

(* ===================================================================== *)
(** * What the status calls report *)
(* ===================================================================== *)

Section Reports.

(** Every stored record belongs to a request that was admitted. *)
Let known (st : State) (outs : list output) : Prop :=
  forall request_id,
    is_Some (request_results st !! request_id) -> request_id ∈ added_ids outs.

Lemma wait_check_dom st w clock request_id :
  is_Some (request_results (wait_check st w clock).1 !! request_id) ->
  is_Some (request_results st !! request_id).
Proof.
  unfold wait_check.
  destruct (clock - w_start_time w <? w_timeout w * 1000000).
  - destruct (request_results st !! w_request_id w) as [d|] eqn:Hd; [|done].
    destruct (status d); cbn [fst set_results request_results]; try done;
      intros [x [_ Hx]%lookup_delete_Some]; eauto.
  - destruct (request_results st !! w_request_id w) as [d|] eqn:Hd; [|done].
    cbn [fst set_results request_results].
    intros [x [[<- _] | [_ Hx]]%lookup_insert_Some]; eauto.
Qed.

Lemma wait_check_api_keys st w clock :
  api_keys (wait_check st w clock).1 = api_keys st.
Proof.
  unfold wait_check.
  destruct (clock - w_start_time w <? w_timeout w * 1000000).
  - destruct (request_results st !! w_request_id w) as [d|]; [|done].
    by destruct (status d).
  - by destruct (request_results st !! w_request_id w).
Qed.

Lemma step_known st ev outs :
  system_inv st outs -> known st outs ->
  known (step st ev).1 (outs ++ (step st ev).2) /\
  api_keys (step st ev).1 = api_keys st.
Proof.
  intros Hinv Hk. subst known. cbv beta in *.
  assert (Hmono : forall o id, id ∈ added_ids outs -> id ∈ added_ids (outs ++ o)).
  { intros o id Hid. rewrite added_ids_app. apply elem_of_app. by left. }
  destruct ev as [m p wt t e | c clock | i e | now]; cbn [step].
  - unfold process_prompt. rewrite admission_spec.
    destruct (after_worker_start_frame st) as (_ & _ & Hr & _).
    assert (Ha : api_keys (after_worker_start st).1 = api_keys st).
    { unfold after_worker_start. by destruct (_ && _). }
    destruct (after_worker_start st) as [st0 out0]; cbn [fst snd] in Hr, Ha.
    destruct (MAX_QUEUE_SIZE <=? current_queue_size st); cbn [fst snd].
    + split; [|done]. intros id Hid. rewrite Hr in Hid. auto.
    + set (rid := generate_request_id (id_clock e) (id_draw e)).
      set (st1 := set_results _ _).
      assert (H1 : forall o id, is_Some (request_results st1 !! id) ->
                     id ∈ added_ids (outs ++ (out0 ++ [LogAdded (rid, m, p)]) ++ o)).
      { intros o id [x Hx]. subst st1. cbn [set_results request_results] in Hx.
        rewrite !added_ids_app.
        apply lookup_insert_Some in Hx as [[<- _] | [_ Hx]].
        - apply elem_of_app; right. apply elem_of_app; left.
          apply elem_of_app; right. cbn. by left.
        - apply elem_of_app; left. apply Hk. rewrite <- Hr. eauto. }
      destruct (negb wt); cbn [fst snd]; [split; [apply H1 | done]|].
      pose proof (wait_check_dom st1 (mkWaiter rid (start_clock e) t)
                    (check_clock e)) as Hd.
      pose proof (wait_check_api_keys st1 (mkWaiter rid (start_clock e) t)
                    (check_clock e)) as Hapi.
      destruct (wait_check st1 _ (check_clock e)) as [st2 o2];
        cbn [fst snd] in *.
      cbn [set_waiters request_results api_keys].
      split; [|by rewrite Hapi]. intros id Hid. apply H1, Hd, Hid.
  - unfold wake. destruct (waiters st !! c) as [[w|]|];
      [|split; [intros id Hid; auto | done]..].
    pose proof (wait_check_dom st w clock) as Hd.
    pose proof (wait_check_api_keys st w clock) as Hapi.
    destruct (wait_check st w clock) as [st2 o2]; cbn [fst snd] in *.
    split; [|by destruct (suspended o2)].
    intros id Hid. apply Hmono, Hk, Hd. by destruct (suspended o2).
  - unfold queue_worker.
    destruct (workers st !! i) as [[| |rid msg prio|]|] eqn:Hi; cbn [fst snd];
      try (split; [intros id Hid; auto | done]).
    + destruct (request_queue st) as [|[[rid msg] prio] q]; cbn [fst snd];
        (split; [intros id Hid; auto | done]).
    + destruct (process_prompt_direct (api_keys st) msg (attempts e)) as [r effs].
      cbn [fst snd]. split; [|done].
      intros id [x Hx]. cbn [set_worker set_results request_results] in Hx.
      apply Hmono. apply lookup_insert_Some in Hx as [[<- _] | [_ Hx]]; [|eauto].
      destruct Hinv as (_ & _ & _ & _ & I5 & _). rewrite I5.
      apply elem_of_app; right. apply elem_of_app; left.
      unfold in_flight. apply list_elem_of_omap.
      exists (WProcessing rid msg prio). split; [|done].
      by eapply list_elem_of_lookup_2.
  - split; [|done]. intros id [x Hx]. rewrite app_nil_r. apply Hk.
    apply reaper_queued_before in Hx. eauto.
Qed.

Lemma exec_known evs : forall st outs,
  system_inv st outs -> known st outs ->
  known (exec st evs).1 (outs ++ (exec st evs).2) /\
  api_keys (exec st evs).1 = api_keys st.
Proof.
  induction evs as [|ev evs IH]; intros st outs Hinv Hk; cbn [exec].
  - by rewrite app_nil_r.
  - pose proof (step_inv st ev outs Hinv) as Hinv1.
    destruct (step_known st ev outs Hinv Hk) as [Hk1 Ha1].
    destruct (step st ev) as [st1 o1]; cbn [fst snd] in *.
    destruct (IH st1 (outs ++ o1) Hinv1 Hk1) as [Hk2 Ha2].
    destruct (exec st1 evs) as [st2 o2]; cbn [fst snd] in *.
    rewrite app_assoc. split; [done | congruence].
Qed.

(** X12. What [get_queue_status] reports.  After any schedule of calls,
    wake-ups, worker steps and sweeps, the reported queue size is the number
    of requests in the queue and lies between 0 and the reported maximum,
    100; the reported number of keys is that of the pool the module loaded. *)
Theorem queue_status_consistent (keys : list string) (evs : list event) :
  let st := (exec (initial_state keys) evs).1 in
  let report := get_queue_status st in
  queue_size report = Z.of_nat (List.length (request_queue st)) /\
  0 <= queue_size report <= max_queue_size report /\
  max_queue_size report = 100 /\
  api_keys_count report = Z.of_nat (List.length keys) /\
  pending_results report = Z.of_nat (size (request_results st)).
Proof.
  cbv zeta.
  pose proof (exec_inv evs (initial_state keys) [] (initial_inv keys)) as Hinv.
  destruct (exec_known evs (initial_state keys) [] (initial_inv keys))
    as [_ Ha]; [by intros id [x Hx]|].
  destruct Hinv as (_ & _ & I3 & I4 & _).
  cbn [get_queue_status queue_size max_queue_size api_keys_count pending_results].
  rewrite Ha. cbn [initial_state api_keys].
  repeat split; auto. lia.
Qed.

(** X13. Records exist for admitted requests only.  After any schedule,
    every identifier for which [check_request_status] finds a record is the
    identifier of a request that was added to the queue: neither a refused
    call nor the worker, the wait loop or the reaper makes a record appear
    under another identifier. *)
Theorem records_of_admitted_only (keys : list string) (evs : list event)
    (request_id : string) :
  let '(st, outs) := exec (initial_state keys) evs in
  match check_request_status st request_id with
  | Found _ => request_id ∈ added_ids outs
  | NotFound => True
  end.
Proof.
  destruct (exec_known evs (initial_state keys) [] (initial_inv keys))
    as [Hk _]; [by intros id [x Hx]|].
  destruct (exec (initial_state keys) evs) as [st outs]; cbn [fst snd] in Hk.
  unfold check_request_status.
  destruct (request_results st !! request_id) eqn:Hr; [|done].
  apply Hk. eauto.
Qed.

End Reports.

(* ===================================================================== *)
(** * The priority of a request *)
(* ===================================================================== *)

Section Priority.

Lemma strip_wait_check st w clock :
  wait_check (strip_state st) w clock
  = (strip_state (wait_check st w clock).1, (wait_check st w clock).2).
Proof.
  unfold wait_check. cbn [strip_state request_results].
  destruct (clock - w_start_time w <? w_timeout w * 1000000).
  - destruct (request_results st !! w_request_id w) as [d|]; [|done].
    by destruct (status d).
  - by destruct (request_results st !! w_request_id w).
Qed.

Lemma strip_output_wait_check st w clock :
  strip_output <$> (wait_check st w clock).2 = (wait_check st w clock).2.
Proof.
  unfold wait_check.
  destruct (clock - w_start_time w <? w_timeout w * 1000000).
  - destruct (request_results st !! w_request_id w) as [d|]; [|done].
    by destruct (status d).
  - by destruct (request_results st !! w_request_id w).
Qed.

Lemma strip_spawn st : spawn_worker (strip_state st) = strip_state (spawn_worker st).
Proof.
  unfold spawn_worker, strip_state; cbn. by rewrite fmap_app, length_fmap.
Qed.

Lemma strip_set_queue n q st :
  set_queue n (strip_request <$> q) (strip_state st) = strip_state (set_queue n q st).
Proof. reflexivity. Qed.

Lemma strip_set_results f st :
  set_results f (strip_state st) = strip_state (set_results f st).
Proof. reflexivity. Qed.

Lemma strip_set_running b st :
  set_running b (strip_state st) = strip_state (set_running b st).
Proof. reflexivity. Qed.

Lemma strip_set_waiters ws st :
  set_waiters ws (strip_state st) = strip_state (set_waiters ws st).
Proof. reflexivity. Qed.

Lemma strip_set_worker i pc st :
  set_worker i (strip_pc pc) (strip_state st) = strip_state (set_worker i pc st).
Proof.
  unfold set_worker, strip_state; cbn. by rewrite list_fmap_insert.
Qed.

Lemma strip_after_worker_start st :
  after_worker_start (strip_state st)
  = (strip_state (after_worker_start st).1, (after_worker_start st).2).
Proof.
  unfold after_worker_start. cbn [strip_state queue_worker_running queue_worker_task].
  destruct (_ && _); cbn [fst snd]; [by rewrite strip_spawn | done].
Qed.

Lemma strip_admission st m p e :
  admission (strip_state st) m 0 e
  = ((admission st m p e).1.1, strip_state (admission st m p e).1.2,
     strip_output <$> (admission st m p e).2).
Proof.
  unfold admission. rewrite strip_after_worker_start.
  assert (Ho : strip_output <$> (after_worker_start st).2 = (after_worker_start st).2).
  { unfold after_worker_start. by destruct (_ && _). }
  destruct (after_worker_start st) as [st0 o0]; cbn [fst snd] in Ho |- *.
  change (current_queue_size (strip_state st0)) with (current_queue_size st0).
  destruct (MAX_QUEUE_SIZE <=? current_queue_size st0); cbn [fst snd].
  - by rewrite fmap_app, Ho.
  - rewrite fmap_app, Ho. cbn [fmap list_fmap strip_output strip_request fst snd].
    f_equal. f_equal.
    unfold set_results, set_queue, strip_state; cbn. by rewrite fmap_app.
Qed.

Lemma strip_step st ev :
  step (strip_state st) (strip_event ev)
  = (strip_state (step st ev).1, strip_output <$> (step st ev).2).
Proof.
  destruct ev as [m p wt t e | c clock | i e | now]; cbn [step strip_event].
  - unfold process_prompt. rewrite (strip_admission st m p e).
    destruct (admission st m p e) as [[[err | rid] st1] o1]; cbn [fst snd].
    + by rewrite fmap_app.
    + destruct (negb wt); cbn [fst snd]; [by rewrite fmap_app|].
      rewrite strip_wait_check.
      pose proof (strip_output_wait_check st1 (mkWaiter rid (start_clock e) t)
                    (check_clock e)) as Ho.
      destruct (wait_check st1 _ (check_clock e)) as [st2 o2];
        cbn [fst snd] in Ho |- *.
      by rewrite fmap_app, Ho.
  - unfold wake. cbn [strip_state waiters].
    destruct (waiters st !! c) as [[w|]|]; [|reflexivity..].
    rewrite strip_wait_check.
    pose proof (strip_output_wait_check st w clock) as Ho.
    destruct (wait_check st w clock) as [st2 o2]; cbn [fst snd] in Ho |- *.
    rewrite Ho. by destruct (suspended o2).
  - unfold queue_worker.
    change (workers (strip_state st)) with (strip_pc <$> workers st).
    change (request_queue (strip_state st)) with (strip_request <$> request_queue st).
    change (api_keys (strip_state st)) with (api_keys st).
    change (current_queue_size (strip_state st)) with (current_queue_size st).
    rewrite list_lookup_fmap.
    destruct (workers st !! i) as [[| |rid msg prio|]|];
      cbn [fmap option_fmap option_map strip_pc fst snd]; try reflexivity.
    + by rewrite strip_set_running, <- strip_set_worker.
    + destruct (request_queue st) as [|[[rid msg] prio] q];
        cbn [fmap list_fmap strip_request fst snd]; [reflexivity|].
      change (list_fmap _ _ strip_request q) with (strip_request <$> q).
      by rewrite strip_set_queue, <- strip_set_worker.
    + destruct (process_prompt_direct (api_keys st) msg (attempts e)) as [r effs].
      cbn [fst snd]. rewrite strip_set_results, <- strip_set_worker.
      by destruct r.
    + by rewrite <- strip_set_worker.
  - reflexivity.
Qed.

Lemma strip_exec evs : forall st,
  exec (strip_state st) (strip_event <$> evs)
  = (strip_state (exec st evs).1, strip_output <$> (exec st evs).2).
Proof.
  induction evs as [|ev evs IH]; intros st; [reflexivity|].
  cbn [fmap list_fmap exec]. rewrite strip_step.
  destruct (step st ev) as [st1 o1]; cbn [fst snd].
  change (list_fmap event event strip_event evs) with (strip_event <$> evs).
  rewrite IH. destruct (exec st1 evs) as [st2 o2]; cbn [fst snd].
  by rewrite fmap_app.
Qed.

End Priority.

Lemma strip_ids outs :
  processing_ids (strip_output <$> outs) = processing_ids outs /\
  stored_ids (strip_output <$> outs) = stored_ids outs /\
  added_ids (strip_output <$> outs) = added_ids outs.
Proof.
  unfold processing_ids, stored_ids, added_ids.
  induction outs as [|o outs (IH1 & IH2 & IH3)]; [done|].
  destruct o; cbn -[req_id]; rewrite ?IH1, ?IH2, ?IH3; done.
Qed.

Lemma strip_queue_ids (q : list Request) :
  req_id <$> (strip_request <$> q) = req_id <$> q.
Proof. rewrite <- list_fmap_compose. by apply list_fmap_ext; intros ? [[??]?]. Qed.

(** X14. The priority passed to [process_prompt] changes nothing but what is
    logged.  Two schedules that differ in the priorities of their calls only
    keep the same records, hold the same requests in the queue in the same
    order, serve them in the same order and end every call in the same way;
    their traces differ only in the priority shown with a queue entry.  So
    the 1, 2 or 3 that the handlers of [bot.py] pass for administrators,
    premium users and the others does not move a request forward. *)
Theorem priority_is_inert (keys : list string) (evs evs' : list event) :
  strip_event <$> evs = strip_event <$> evs' ->
  let '(st, outs) := exec (initial_state keys) evs in
  let '(st', outs') := exec (initial_state keys) evs' in
  request_results st' = request_results st /\
  req_id <$> request_queue st' = req_id <$> request_queue st /\
  current_queue_size st' = current_queue_size st /\
  waiters st' = waiters st /\
  strip_output <$> outs' = strip_output <$> outs /\
  added_ids outs' = added_ids outs /\
  processing_ids outs' = processing_ids outs /\
  stored_ids outs' = stored_ids outs.
Proof.
  intros Hevs.
  pose proof (strip_exec evs (initial_state keys)) as H.
  pose proof (strip_exec evs' (initial_state keys)) as H'.
  rewrite Hevs, H' in H. clear H' Hevs.
  destruct (exec (initial_state keys) evs) as [st outs].
  destruct (exec (initial_state keys) evs') as [st' outs'].
  cbn [fst snd] in H.
  pose proof (f_equal fst H) as Hst. pose proof (f_equal snd H) as Houts.
  cbn [fst snd] in Hst, Houts. clear H.
  destruct (strip_ids outs) as (P1 & P2 & P3).
  destruct (strip_ids outs') as (P1' & P2' & P3').
  split; [exact (f_equal request_results Hst)|].
  split; [rewrite <- (strip_queue_ids (request_queue st')),
                  <- (strip_queue_ids (request_queue st));
          exact (f_equal (fmap req_id) (f_equal request_queue Hst))|].
  split; [exact (f_equal current_queue_size Hst)|].
  split; [exact (f_equal waiters Hst)|].
  split; [done|].
  rewrite <- P1, <- P2, <- P3, <- P1', <- P2', <- P3', Houts. done.
Qed.

Lemma priority_is_inert_witness :
  let e1 := Scenario.submit_at Scenario.t0 1234 in
  let e2 := Scenario.submit_at (Scenario.t0 + 1000000) 5678 in
  let w := WorkerEnv (Scenario.always (UText "Slide 1")) (Scenario.t0 + 300000) in
  let run := fun p1 p2 =>
    exec (initial_state ["k1"])
      [EvSubmit "Make slides" p1 false 120 e1;
       EvSubmit "Other slides" p2 false 120 e2;
       EvWorker 0 w; EvWorker 0 w; EvWorker 0 w] in
  let by_rank := run (request_priority false false) (request_priority true false) in
  let by_arrival := run (request_priority true false) (request_priority false false) in
  request_results by_arrival.1 = request_results by_rank.1 /\
  processing_ids by_arrival.2 = processing_ids by_rank.2 /\
  processing_ids by_rank.2 = ["req_1700000000_1234"].
Proof.
  cbv zeta.
  pose proof (priority_is_inert ["k1"]
    [EvSubmit "Make slides" (request_priority false false) false 120
       (Scenario.submit_at Scenario.t0 1234);
     EvSubmit "Other slides" (request_priority true false) false 120
       (Scenario.submit_at (Scenario.t0 + 1000000) 5678);
     EvWorker 0 (WorkerEnv (Scenario.always (UText "Slide 1")) (Scenario.t0 + 300000));
     EvWorker 0 (WorkerEnv (Scenario.always (UText "Slide 1")) (Scenario.t0 + 300000));
     EvWorker 0 (WorkerEnv (Scenario.always (UText "Slide 1")) (Scenario.t0 + 300000))]
    [EvSubmit "Make slides" (request_priority true false) false 120
       (Scenario.submit_at Scenario.t0 1234);
     EvSubmit "Other slides" (request_priority false false) false 120
       (Scenario.submit_at (Scenario.t0 + 1000000) 5678);
     EvWorker 0 (WorkerEnv (Scenario.always (UText "Slide 1")) (Scenario.t0 + 300000));
     EvWorker 0 (WorkerEnv (Scenario.always (UText "Slide 1")) (Scenario.t0 + 300000));
     EvWorker 0 (WorkerEnv (Scenario.always (UText "Slide 1")) (Scenario.t0 + 300000))]
    eq_refl) as H.
  destruct (exec _ _) as [st outs] eqn:E in H.
  destruct (exec _ _) as [st' outs'] eqn:E' in H.
  rewrite E, E'. cbn [fst snd].
  destruct H as (H1 & _ & _ & _ & _ & _ & H7 & _).
  split; [exact H1|]. split; [exact H7|].
  apply (f_equal snd) in E. cbn [snd] in E. rewrite <- E.
  vm_compute. reflexivity.
Defined.

(* ===================================================================== *)
(** * When two request identifiers coincide *)
(* ===================================================================== *)

Section Identifiers.

Lemma uint_free_of_underscore (d : Decimal.uint) :
  free_of "_" (NilEmpty.string_of_uint d) = true.
Proof. induction d; simpl; auto. Qed.

Lemma str_int_free_of_underscore (n : Z) : free_of "_" (str_int n) = true.
Proof.
  unfold str_int, NilZero.string_of_int, NilZero.string_of_uint.
  destruct (Z.to_int n) as [d | d]; destruct d; simpl;
    auto using uint_free_of_underscore.
Qed.

(** Two texts cut at their first underscore. *)
Lemma split_at_underscore (a a' b b' : string) :
  free_of "_" a = true -> free_of "_" a' = true ->
  a +:+ "_" +:+ b = a' +:+ "_" +:+ b' -> a = a' /\ b = b'.
Proof.
  revert a'. induction a as [|c a IH]; intros [|c' a'] Ha Ha' H.
  - change (String "_" b = String "_" b') in H. by injection H as ->.
  - change (String "_" b = String c' (a' +:+ "_" +:+ b')) in H.
    injection H as <- _. cbn in Ha'. discriminate Ha'.
  - change (String c (a +:+ "_" +:+ b) = String "_" b') in H.
    injection H as -> _. cbn in Ha. discriminate Ha.
  - change (String c (a +:+ "_" +:+ b) = String c' (a' +:+ "_" +:+ b')) in H.
    injection H as -> H. cbn [free_of] in Ha, Ha'.
    apply andb_prop in Ha as [_ Ha]. apply andb_prop in Ha' as [_ Ha'].
    destruct (IH a' Ha Ha' H) as [-> ->]. done.
Qed.

End Identifiers.

(** X15. When two calls get the same request identifier.  The identifiers
    generated at clock readings [c1] and [c2] with random draws [d1] and [d2]
    are the same text exactly when the two readings fall in the same whole
    second and the two draws are equal; in every other case they differ. *)
Theorem request_ids_equal_iff (c1 d1 c2 d2 : Z) :
  generate_request_id c1 d1 = generate_request_id c2 d2 <->
  Z.quot c1 1000000 = Z.quot c2 1000000 /\ d1 = d2.
Proof.
  unfold generate_request_id. split.
  - intros H. injection H as H.
    apply split_at_underscore in H as [H1 H2];
      auto using str_int_free_of_underscore.
    split; by apply str_int_inj.
  - by intros [-> ->].
Qed.

(* ===================================================================== *)
(** * Waiting at the limiter *)
(* ===================================================================== *)

Section LimiterProgress.
Import Limiter.

Variable keys : list string.

Lemma sum_held_in_body ts :
  sum_held ts = Z.of_nat (List.length (List.filter in_body ts)).
Proof. induction ts as [|[] ts IH]; cbn [sum_held held List.filter in_body List.length]; lia. Qed.

Lemma step_task_ok s i e :
  Forall task_ok (tasks s) -> Forall task_ok (tasks (step keys s i e)).
Proof.
  intros Hok. unfold step.
  destruct (tasks s !! i) as [[m | m rc | r]|] eqn:Hi; [|
    |done..].
  - destruct (0 <? sem_value s); [|done]. cbn [tasks].
    apply Forall_insert; [done|]. cbn. unfold MAX_RETRIES. lia.
  - pose proof (loop_iteration_effects keys m rc e) as H.
    assert (Hrc : (rc < MAX_RETRIES)%nat)
      by (eapply (Forall_lookup_1 task_ok) in Hi; [exact Hi | done]).
    apply Nat.ltb_lt in Hrc as ->.
    destruct (loop_iteration keys m rc e) as [[a n | err | rc'] effs];
      cbn [fst tasks]; (apply Forall_insert; [done|]); cbn; try done.
    destruct H as (_ & _ & _ & H). by destruct (H rc' eq_refl) as (-> & ? & _).
Qed.

Lemma run_task_ok schedule : forall s,
  Forall task_ok (tasks s) -> Forall task_ok (tasks (run keys s schedule)).
Proof.
  induction schedule as [|[i e] schedule IH]; intros s Hok; cbn [run]; [done|].
  by apply IH, step_task_ok.
Qed.

Lemma init_task_ok messages : Forall task_ok (tasks (init keys messages)).
Proof. cbn [init tasks]. apply Forall_fmap, Forall_true. done. Qed.

End LimiterProgress.

(* ===================================================================== *)
(** * Permits of the concurrency limiter *)
(* ===================================================================== *)

Section Permits.
Import Limiter.

Variable keys : list string.

(** One step and the permit of invocation [i]. *)
Lemma step_counts s j e i :
  taken (tasks (step keys s j e) !! i)
  = (taken (tasks s !! i)
     + (if Nat.eqb j i && Z.ltb (sem_value (step keys s j e)) (sem_value s)
        then 1 else 0))%nat /\
  given_back (tasks (step keys s j e) !! i)
  = (given_back (tasks s !! i)
     + (if Nat.eqb j i && Z.ltb (sem_value s) (sem_value (step keys s j e))
        then 1 else 0))%nat.
Proof.
  assert (Hup : forall v : Z, (v <? v + 1) = true /\ (v + 1 <? v) = false)
    by (intros v; split; [apply Z.ltb_lt | apply Z.ltb_ge]; lia).
  assert (Hdown : forall v : Z, (v - 1 <? v) = true /\ (v <? v - 1) = false)
    by (intros v; split; [apply Z.ltb_lt | apply Z.ltb_ge]; lia).
  assert (Hsame : forall (st : state) (b : bool),
             taken (tasks st !! i)
             = (taken (tasks st !! i)
                + (if b && Z.ltb (sem_value st) (sem_value st) then 1 else 0))%nat /\
             given_back (tasks st !! i)
             = (given_back (tasks st !! i)
                + (if b && Z.ltb (sem_value st) (sem_value st) then 1 else 0))%nat)
    by (intros st b; rewrite Z.ltb_irrefl, andb_false_r; lia).
  unfold step.
  destruct (tasks s !! j) as [[m | m rc | r]|] eqn:Hj; [| |apply Hsame..].
  - destruct (0 <? sem_value s); [|apply Hsame].
    cbn [tasks sem_value].
    destruct (Hdown (sem_value s)) as [-> ->].
    destruct (Nat.eqb_spec j i) as [<-|Hne]; cbn [andb].
    + rewrite list_lookup_insert_eq by (by eapply lookup_lt_Some).
      rewrite Hj. done.
    + rewrite list_lookup_insert_ne by done. lia.
  - assert (Hleave : forall r,
      taken (<[j := TDone r]> (tasks s) !! i)
      = (taken (tasks s !! i)
         + (if Nat.eqb j i && Z.ltb (sem_value s + 1) (sem_value s) then 1 else 0))%nat /\
      given_back (<[j := TDone r]> (tasks s) !! i)
      = (given_back (tasks s !! i)
         + (if Nat.eqb j i && Z.ltb (sem_value s) (sem_value s + 1) then 1 else 0))%nat).
    { intros r. destruct (Hup (sem_value s)) as [-> ->].
      destruct (Nat.eqb_spec j i) as [<-|Hne]; cbn [andb].
      - rewrite list_lookup_insert_eq by (by eapply lookup_lt_Some).
        rewrite Hj. done.
      - rewrite list_lookup_insert_ne by done. lia. }
    destruct (rc <? MAX_RETRIES)%nat; [|apply Hleave].
    destruct (loop_iteration keys m rc e).1 as [a n | err | rc'];
      cbn [tasks sem_value]; [apply Hleave..|].
    rewrite Z.ltb_irrefl, andb_false_r.
    destruct (Nat.eq_dec j i) as [<-|Hne].
    + rewrite list_lookup_insert_eq by (by eapply lookup_lt_Some).
      rewrite Hj. done.
    + rewrite list_lookup_insert_ne by done. lia.
Qed.

Lemma run_counts schedule : forall s i,
  taken (tasks (run keys s schedule) !! i)
  = (taken (tasks s !! i) + acquires keys s schedule i)%nat /\
  given_back (tasks (run keys s schedule) !! i)
  = (given_back (tasks s !! i) + releases keys s schedule i)%nat.
Proof.
  induction schedule as [|[j e] schedule IH]; intros s i;
    cbn [run acquires releases]; [lia|].
  destruct (step_counts s j e i) as [H1 H2].
  destruct (IH (step keys s j e) i) as [H3 H4]. cbv zeta. lia.
Qed.

Lemma step_others s i e j :
  j <> i -> tasks (step keys s i e) !! j = tasks s !! j.
Proof.
  intros Hne. unfold step.
  destruct (tasks s !! i) as [[m | m rc | r]|]; [| |done..].
  - destruct (0 <? sem_value s); [|done].
    cbn [tasks]. by rewrite list_lookup_insert_ne.
  - destruct (rc <? MAX_RETRIES)%nat;
      [destruct (loop_iteration keys m rc e).1|];
      cbn [tasks]; by rewrite list_lookup_insert_ne.
Qed.

End Permits.

(** C4.  The semaphore is created with twice the number of keys, or 3 with no
    key.  However the invocations of [process_prompt_direct] interleave, the
    permits handed out and not returned are as many as the invocations inside
    the [async with] block and never more than that size.  Every invocation
    takes its permit once, when it enters the block, keeps it through every
    pass of the loop, whatever the retry counter, and gives it back once, when
    it leaves with an answer or an exception: a pass that ends in a retry
    leaves the counter of the semaphore alone and the invocation inside, and
    no step of one invocation moves another. *)
Theorem permits_bounded (keys : list string) (messages : list string)
    (schedule : list (nat * attempt_env)) (i : nat) (e : attempt_env) :
  let s0 := Limiter.init keys messages in
  let s := Limiter.run keys s0 schedule in
  let s' := Limiter.step keys s i e in
  MAX_CONCURRENT_REQUESTS keys
  = (if decide (keys = []) then 3 else 2 * Z.of_nat (List.length keys)) /\
  Limiter.outstanding keys s = Limiter.sum_held (Limiter.tasks s) /\
  0 <= Limiter.outstanding keys s <= MAX_CONCURRENT_REQUESTS keys /\
  match Limiter.tasks s !! i with
  | Some (Limiter.TBody _ retry_count) =>
      acquires keys s0 schedule i = 1%nat /\
      releases keys s0 schedule i = 0%nat /\
      (retry_count < MAX_RETRIES)%nat
  | Some (Limiter.TDone r) =>
      acquires keys s0 schedule i = 1%nat /\
      releases keys s0 schedule i = 1%nat /\
      r <> DNone
  | _ =>
      acquires keys s0 schedule i = 0%nat /\
      releases keys s0 schedule i = 0%nat
  end /\
  (forall j, j <> i -> Limiter.tasks s' !! j = Limiter.tasks s !! j) /\
  match Limiter.tasks s !! i with
  | Some (Limiter.TEntry m) =>
      if 0 <? Limiter.sem_value s
      then Limiter.tasks s' !! i = Some (Limiter.TBody m 0) /\
           Limiter.sem_value s' = Limiter.sem_value s - 1
      else s' = s
  | Some (Limiter.TBody m retry_count) =>
      match (loop_iteration keys m retry_count e).1 with
      | IContinue retry_count' =>
          retry_count' = S retry_count /\
          Limiter.tasks s' !! i = Some (Limiter.TBody m (S retry_count)) /\
          Limiter.sem_value s' = Limiter.sem_value s
      | IReturn a n =>
          Limiter.tasks s' !! i = Some (Limiter.TDone (DReturn a n)) /\
          Limiter.sem_value s' = Limiter.sem_value s + 1
      | IRaise err =>
          Limiter.tasks s' !! i = Some (Limiter.TDone (DRaise err)) /\
          Limiter.sem_value s' = Limiter.sem_value s + 1
      end
  | _ => s' = s
  end.
Proof.
  cbv zeta.
  set (s0 := Limiter.init keys messages).
  set (s := Limiter.run keys s0 schedule).
  pose proof (LimiterFacts.max_concurrent_pos keys) as Hpos.
  destruct (LimiterFacts.run_conserves keys schedule s0) as [Hv Heq];
    [simpl; lia|].
  fold s in Hv, Heq.
  cbn [s0 Limiter.init Limiter.sem_value Limiter.tasks] in Heq.
  rewrite LimiterFacts.sum_held_entry in Heq.
  pose proof (LimiterFacts.sum_held_nonneg (Limiter.tasks s)) as Hh.
  pose proof (run_task_ok keys schedule s0 (init_task_ok keys messages)) as Hok.
  fold s in Hok.
  destruct (run_counts keys schedule s0 i) as [Ha Hr]. fold s in Ha, Hr.
  assert (H0 : Limiter.tasks s0 !! i = None \/
               exists m, Limiter.tasks s0 !! i = Some (Limiter.TEntry m)).
  { cbn [s0 Limiter.init Limiter.tasks]. rewrite list_lookup_fmap.
    destruct (messages !! i); cbn; eauto. }
  assert (Ha' : taken (Limiter.tasks s !! i) = acquires keys s0 schedule i)
    by (destruct H0 as [H0 | [m H0]]; rewrite H0 in Ha; exact Ha).
  assert (Hr' : given_back (Limiter.tasks s !! i) = releases keys s0 schedule i)
    by (destruct H0 as [H0 | [m H0]]; rewrite H0 in Hr; exact Hr).
  clear Ha Hr H0.
  unfold Limiter.outstanding.
  split; [destruct keys; simpl; [done | lia]|].
  split; [lia|]. split; [lia|].
  split; [|split; [intros j Hne; by apply step_others|]].
  - destruct (Limiter.tasks s !! i) as [[m | m rc | r]|] eqn:Hi;
      cbn [taken given_back] in Ha', Hr'; rewrite <- Ha', <- Hr'; try done.
    + split; [done|]. split; [done|].
      by eapply (Forall_lookup_1 task_ok) in Hi.
    + split; [done|]. split; [done|].
      by eapply (Forall_lookup_1 task_ok) in Hi.
  - destruct (Limiter.tasks s !! i) as [[m | m rc | r]|] eqn:Hi.
    + unfold Limiter.step. rewrite Hi.
      destruct (0 <? Limiter.sem_value s); [|done].
      cbn [Limiter.tasks Limiter.sem_value]. split; [|done].
      apply list_lookup_insert_eq. by eapply lookup_lt_Some.
    + assert (Hrc : (rc < MAX_RETRIES)%nat)
        by (eapply (Forall_lookup_1 task_ok) in Hi; [exact Hi | done]).
      assert (Hlt : (i < List.length (Limiter.tasks s))%nat)
        by (by eapply lookup_lt_Some).
      pose proof (loop_iteration_effects keys m rc e) as H.
      unfold Limiter.step. rewrite Hi.
      apply Nat.ltb_lt in Hrc as ->.
      destruct (loop_iteration keys m rc e) as [[a n | err | rc'] effs];
        cbn [fst Limiter.tasks Limiter.sem_value];
        rewrite ?list_lookup_insert_eq by done; try done.
      destruct H as (_ & _ & _ & H). destruct (H rc' eq_refl) as (-> & _ & _).
      done.
    + unfold Limiter.step. by rewrite Hi.
    + unfold Limiter.step. by rewrite Hi.
Qed.

(** X16. Waiting at the limiter and leaving it.  After any interleaving of
    invocations of [process_prompt_direct], an invocation at the entry of the
    [async with] block goes in as soon as it is scheduled unless exactly
    [MAX_CONCURRENT_REQUESTS] invocations are inside, in which case it stays
    where it is; an invocation inside still passes the loop test, and its next
    step either takes it to the next pass, with the retry counter one higher,
    or out of the block with an answer or an exception: no invocation leaves by
    falling off the loop. *)
Theorem limiter_progress (keys : list string) (messages : list string)
    (schedule : list (nat * attempt_env)) (i : nat) (e : attempt_env) :
  let s := Limiter.run keys (Limiter.init keys messages) schedule in
  let s' := Limiter.step keys s i e in
  match Limiter.tasks s !! i with
  | Some (Limiter.TEntry m) =>
      if 0 <? Limiter.sem_value s
      then Limiter.tasks s' !! i = Some (Limiter.TBody m 0) /\
           Limiter.outstanding keys s' = Limiter.outstanding keys s + 1
      else s' = s /\
           Z.of_nat (List.length (List.filter in_body (Limiter.tasks s)))
           = MAX_CONCURRENT_REQUESTS keys
  | Some (Limiter.TBody m retry_count) =>
      (retry_count < MAX_RETRIES)%nat /\
      match Limiter.tasks s' !! i with
      | Some (Limiter.TBody m' retry_count') =>
          m' = m /\ retry_count' = S retry_count /\
          Limiter.outstanding keys s' = Limiter.outstanding keys s
      | Some (Limiter.TDone r) =>
          r <> DNone /\
          Limiter.outstanding keys s' = Limiter.outstanding keys s - 1
      | _ => False
      end
  | Some (Limiter.TDone r) => r <> DNone /\ s' = s
  | None => s' = s
  end.
Proof.
  cbv zeta.
  set (s := Limiter.run keys (Limiter.init keys messages) schedule).
  pose proof (run_task_ok keys schedule _ (init_task_ok keys messages)) as Hok.
  fold s in Hok.
  pose proof (step_task_ok keys s i e Hok) as Hok'.
  destruct (LimiterFacts.run_conserves keys schedule (Limiter.init keys messages))
    as [Hv Heq]; [pose proof (LimiterFacts.max_concurrent_pos keys); simpl; lia|].
  fold s in Hv, Heq. cbn [Limiter.init Limiter.sem_value Limiter.tasks] in Heq.
  rewrite LimiterFacts.sum_held_entry, sum_held_in_body in Heq.
  destruct (Limiter.tasks s !! i) as [[m | m rc | r]|] eqn:Hi.
  - unfold Limiter.step, Limiter.outstanding. rewrite Hi.
    destruct (0 <? Limiter.sem_value s) eqn:Hpos.
    + cbn [Limiter.tasks Limiter.sem_value]. split; [|lia].
      apply list_lookup_insert_eq. by eapply lookup_lt_Some.
    + apply Z.ltb_ge in Hpos. split; [done | lia].
  - assert (Hrc : (rc < MAX_RETRIES)%nat)
      by (eapply (Forall_lookup_1 task_ok) in Hi; [exact Hi | done]).
    split; [done|].
    assert (Hlt : (i < List.length (Limiter.tasks s))%nat)
      by (by eapply lookup_lt_Some).
    pose proof (loop_iteration_effects keys m rc e) as H.
    revert Hok'. unfold Limiter.step, Limiter.outstanding. rewrite Hi.
    apply Nat.ltb_lt in Hrc as ->.
    destruct (loop_iteration keys m rc e) as [[a n | err | rc'] effs];
      cbn [fst Limiter.tasks Limiter.sem_value]; intros Hok';
      rewrite list_lookup_insert_eq by done.
    + split; [done | lia].
    + split; [done | lia].
    + destruct H as (_ & _ & _ & H). destruct (H rc' eq_refl) as (-> & _ & _).
      repeat split; lia.
  - split.
    + by eapply (Forall_lookup_1 task_ok) in Hi.
    + unfold Limiter.step. by rewrite Hi.
  - unfold Limiter.step. by rewrite Hi.
Qed.

(* ===================================================================== *)
(** * The launcher and the start of the worker *)
(* ===================================================================== *)


Section MaskedKey.

Lemma string_length_app (s1 s2 : string) :
  String.length (s1 +:+ s2) = (String.length s1 + String.length s2)%nat.
Proof.
  induction s1 as [|c s1 IH]; [done|].
  change (S (String.length (s1 +:+ s2))
          = S (String.length s1 + String.length s2)).
  by rewrite IH.
Qed.

Lemma substring_length (s : string) : forall n m,
  (n + m <= String.length s)%nat -> String.length (String.substring n m s) = m.
Proof.
  induction s as [|c s IH]; intros [|n] [|m] H; cbn in *; try lia.
  - rewrite (IH 0%nat m); lia.
  - apply IH. lia.
  - apply IH. lia.
Qed.

Lemma stars_length (k : nat) :
  String.length (String.concat "" (replicate k "*")) = k.
Proof.
  induction k as [|[|k] IH]; [done..|].
  change (replicate (S (S k)) "*") with ("*" :: replicate (S k) "*").
  remember (replicate (S k) "*") as l eqn:Hl.
  cbn [String.concat]. destruct l as [|x l]; [discriminate|].
  change (String.length (String "*" (String.concat "" (x :: l))) = S (S k)).
  cbn [String.length]. by rewrite IH.
Qed.

Lemma stars_get (k i : nat) :
  (i < k)%nat -> String.get i (String.concat "" (replicate k "*")) = Some "*"%char.
Proof.
  revert i. induction k as [|[|k] IH]; intros i Hi; [lia | |].
  - by replace i with 0%nat by lia.
  - change (replicate (S (S k)) "*") with ("*" :: replicate (S k) "*").
    remember (replicate (S k) "*") as l eqn:Hl.
    cbn [String.concat]. destruct l as [|x l]; [discriminate|].
    change (String.get i (String "*" (String.concat "" (x :: l))) = Some "*"%char).
    destruct i as [|i]; [done|]. cbn [String.get]. apply IH. lia.
Qed.

End MaskedKey.

(** X18. What the launcher logs of the key.  For a key of more than eight
    characters the logged text has the length of the key, shows its first
    four and its last four characters in their places and a star in every
    other place; for a key of at most eight characters it is [***]. *)
Theorem mask_key_shows_eight (gemini_api_key : string) (i : nat) :
  let n := String.length gemini_api_key in
  if (8 <? n)%nat then
    String.length (mask_key gemini_api_key) = n /\
    ((i < n)%nat ->
     String.get i (mask_key gemini_api_key)
     = if (i <? 4)%nat || (n - 4 <=? i)%nat then String.get i gemini_api_key
       else Some "*"%char)
  else mask_key gemini_api_key = "***".
Proof.
  cbv zeta. unfold mask_key.
  destruct (8 <? String.length gemini_api_key)%nat eqn:Hn; [|done].
  apply Nat.ltb_lt in Hn.
  set (n := String.length gemini_api_key) in *.
  set (A := String.substring 0 4 gemini_api_key).
  set (B := String.concat "" (replicate (n - 8) "*")).
  set (C := String.substring (n - 4) 4 gemini_api_key).
  assert (HA : String.length A = 4%nat) by (apply substring_length; lia).
  assert (HB : String.length B = (n - 8)%nat) by apply stars_length.
  assert (HC : String.length C = 4%nat) by (apply substring_length; lia).
  split; [rewrite !string_length_app; lia|].
  intros Hi.
  destruct (i <? 4)%nat eqn:H4; cbn [orb].
  - apply Nat.ltb_lt in H4.
    rewrite <- String.append_correct1 by lia.
    subst A. rewrite String.substring_correct1 by lia. f_equal. lia.
  - apply Nat.ltb_ge in H4.
    replace i with ((i - 4) + String.length A)%nat at 1 by lia.
    rewrite <- String.append_correct2.
    destruct (n - 4 <=? i)%nat eqn:H5.
    + apply Nat.leb_le in H5.
      replace (i - 4)%nat with ((i - (n - 4)) + String.length B)%nat by lia.
      rewrite <- String.append_correct2.
      subst C. rewrite String.substring_correct1 by lia. f_equal. lia.
    + apply Nat.leb_gt in H5.
      rewrite <- String.append_correct1 by lia.
      subst B. apply stars_get. lia.
Qed.

(** X19. Starting the worker twice starts one worker.  [start_queue_worker]
    keeps what every schedule keeps true of the queue and the workers, and
    touches neither the records nor the queue; without a running event loop
    it changes nothing; once it has run with a running loop, neither a second
    call nor the start on demand inside [process_prompt] creates another
    worker. *)
Theorem start_queue_worker_once (st : State) (outs : list output)
    (loop_running loop_running' : bool) :
  system_inv st outs ->
  let st' := start_queue_worker st loop_running in
  system_inv st' outs /\
  (List.length (workers st') <= 1)%nat /\
  request_results st' = request_results st /\
  request_queue st' = request_queue st /\
  (if loop_running then
     start_queue_worker st' loop_running' = st' /\
     after_worker_start st' = (st', [])
   else st' = st).
Proof.
  intros Hinv. cbv zeta.
  destruct (negb (queue_worker_running st) &&
            bool_decide (queue_worker_task st = None)) eqn:Hg.
  - destruct loop_running.
    + assert (E : start_queue_worker st true = spawn_worker st)
        by (unfold start_queue_worker; by rewrite Hg).
      rewrite !E.
      apply andb_prop in Hg as [_ Ht]. apply bool_decide_eq_true in Ht.
      pose proof (spawn_inv st outs Hinv Ht) as Hs.
      unfold system_inv in Hs |- *.
      rewrite added_ids_app, processing_ids_app, stored_ids_app in Hs.
      cbn [added_ids processing_ids stored_ids omap] in Hs.
      rewrite !app_nil_r in Hs.
      split; [exact Hs|]. split; [apply Hs|]. split; [done|]. split; [done|].
      unfold start_queue_worker, after_worker_start.
      cbn [spawn_worker queue_worker_running queue_worker_task].
      rewrite bool_decide_eq_false_2 by discriminate.
      by rewrite andb_false_r.
    + assert (E : start_queue_worker st false = st)
        by (unfold start_queue_worker; by rewrite Hg).
      rewrite !E. repeat split; try apply Hinv.
  - assert (E : start_queue_worker st loop_running = st)
      by (unfold start_queue_worker; by rewrite Hg).
    rewrite !E. split; [done|]. split; [apply Hinv|]. split; [done|].
    split; [done|].
    destruct loop_running; [|done].
    unfold start_queue_worker, after_worker_start. by rewrite Hg.
Qed.

Lemma start_queue_worker_once_witness :
  let st' := start_queue_worker (initial_state ["k1"]) true in
  system_inv st' [] /\
  (List.length (workers st') <= 1)%nat /\
  request_results st' = request_results (initial_state ["k1"]) /\
  request_queue st' = request_queue (initial_state ["k1"]) /\
  start_queue_worker st' true = st' /\
  after_worker_start st' = (st', []).
Proof.
  exact (start_queue_worker_once (initial_state ["k1"]) [] true true
           (initial_inv ["k1"])).
Defined.
